(** * Streaming segmentation and accumulation pipeline of [process_doc.py]

    A shallow embedding of the utterance classifier, the token-budgeted
    chunk buffer and the schema back-fill of the merge step, followed by the
    properties of the specification that concern them.

    Conventions of the embedding.
    - A Python [str] is a [string]; a character is a code point below 256.
      White space and line boundaries are the ones of [str.isspace] and
      [str.splitlines] in that range.
    - A Python [int] is a [Z]; a time stamp ([time.time()]) is a rational.
    - A method that mutates [self] returns its result together with the new
      object.
    - A Python [dict] with string keys is a [gmap string _].
    - What the remote completion service answers is an input of the model. *)

From Stdlib Require Import QArith Ascii String.
From stdpp Require Import gmap strings list fin_maps.

Local Open Scope string_scope.
Local Open Scope list_scope.
Local Open Scope Z_scope.

(** ** Python string primitives *)

Module PyStr.

(** [str.isspace] on one code point below 256: TAB..CR, FS..US, space,
    NEL (0x85) and NBSP (0xA0). *)
Definition is_space (c : ascii) : bool :=
  let n := N_of_ascii c in
  (((9 <=? n) && (n <=? 13)) || ((28 <=? n) && (n <=? 32))
   || (n =? 133) || (n =? 160))%N.

(** [s.lstrip()] *)
Fixpoint lstrip (s : string) : string :=
  match s with
  | EmptyString => EmptyString
  | String c s' => if is_space c then lstrip s' else s
  end.

(** [s.rstrip()] *)
Fixpoint rstrip (s : string) : string :=
  match s with
  | EmptyString => EmptyString
  | String c s' =>
      match rstrip s' with
      | EmptyString => if is_space c then EmptyString else String c EmptyString
      | r => String c r
      end
  end.

(** [s.strip()] *)
Definition strip (s : string) : string := rstrip (lstrip s).

(** [s.split()] with no argument: the maximal runs of non-space characters.
    [cur] is the word being read. *)
Fixpoint split_go (cur : string) (s : string) : list string :=
  match s with
  | EmptyString => if decide (cur = EmptyString) then [] else [cur]
  | String c s' =>
      if is_space c
      then (if decide (cur = EmptyString) then split_go EmptyString s'
            else cur :: split_go EmptyString s')
      else split_go (cur +:+ String c EmptyString) s'
  end.

Definition split (s : string) : list string := split_go EmptyString s.

(** [sep.join(l)] *)
Fixpoint join (sep : string) (l : list string) : string :=
  match l with
  | [] => EmptyString
  | [x] => x
  | x :: rest => x +:+ sep +:+ join sep rest
  end.

(** [t.startswith(p)] *)
Fixpoint startswith (t p : string) {struct p} : bool :=
  match p, t with
  | EmptyString, _ => true
  | String _ _, EmptyString => false
  | String a p', String b t' => if decide (a = b) then startswith t' p' else false
  end.

(** [t.startswith(ps)] for a tuple [ps] *)
Definition startswith_any (t : string) (ps : list string) : bool :=
  existsb (startswith t) ps.

(** [t.endswith(suf)]: some tail of [t] is [suf]. *)
Fixpoint endswith (t suf : string) : bool :=
  if decide (t = suf) then true
  else match t with
       | EmptyString => false
       | String _ t' => endswith t' suf
       end.

(** Case mappings on one code point.  [lower] moves A..Z and the Latin-1
    capitals (0xC0..0xDE but the multiplication sign) by 32; [upper] moves
    a..z and 0xE0..0xFE but the division sign back.  The three Latin-1
    letters whose upper case is not one code point below 256 (0xB5, 0xDF,
    0xFF) are left as they are: none of their images contains an ASCII
    character other than S, and no comparison below is against a text with
    two adjacent S. *)
Definition lower_char (c : ascii) : ascii :=
  let n := N_of_ascii c in
  if (((65 <=? n) && (n <=? 90))
      || ((192 <=? n) && (n <=? 222) && negb (n =? 215)))%N
  then ascii_of_N (n + 32) else c.

Definition upper_char (c : ascii) : ascii :=
  let n := N_of_ascii c in
  if (((97 <=? n) && (n <=? 122))
      || ((224 <=? n) && (n <=? 254) && negb (n =? 247)))%N
  then ascii_of_N (n - 32) else c.

Fixpoint map_chars (f : ascii -> ascii) (s : string) : string :=
  match s with
  | EmptyString => EmptyString
  | String c s' => String (f c) (map_chars f s')
  end.

Definition lower : string -> string := map_chars lower_char.
Definition upper : string -> string := map_chars upper_char.

End PyStr.

Import PyStr.

(** ** Utilities *)

(** [int(x)] on a rational: truncation toward zero. *)
Definition py_int (x : Q) : Z := Z.quot (Qnum x) (Zpos (Qden x)).

(** [len(words) * 0.75] in [approx_token_count].  The factor is exactly
    3/4 in binary floating point and the product is exact as long as three
    times the number of words fits in 53 bits. *)
Definition scaled_word_count (text : string) : Q :=
  let words := split (strip text) in
  inject_Z (Z.of_nat (List.length words)) * (3 # 4).

(** [approx_token_count] *)
Definition approx_token_count (text : string) : Z :=
  py_int (scaled_word_count text).

(** ** Chunker *)

Record ChunkBuffer := mkChunkBuffer {
  overlap_tokens : Z;
  token_target : Z;
  token_max : Z;
  last_activity_ts : Q;
  buffer : list string
}.

Definition set_buffer (cb : ChunkBuffer) (b : list string) : ChunkBuffer :=
  mkChunkBuffer (overlap_tokens cb) (token_target cb) (token_max cb)
                (last_activity_ts cb) b.

Definition set_last_activity_ts (cb : ChunkBuffer) (t : Q) : ChunkBuffer :=
  mkChunkBuffer (overlap_tokens cb) (token_target cb) (token_max cb)
                t (buffer cb).

(** [words[:n]] and [words[n:]] for [n >= 0]. *)
Definition slice_to {A} (l : list A) (n : Z) : list A := take (Z.to_nat n) l.
Definition slice_from {A} (l : list A) (n : Z) : list A := drop (Z.to_nat n) l.

(** [flush_chunk]: the soft flush. *)
Definition flush_chunk (cb : ChunkBuffer) : option string * ChunkBuffer :=
  match buffer cb with
  | [] => (None, cb)
  | _ :: _ =>
      let full_text := strip (join " " (buffer cb)) in
      let words := split full_text in
      if Z.of_nat (List.length words) <=? overlap_tokens cb
      then (Some full_text, set_buffer cb [])
      else
        let boundary := Z.max 0 (Z.of_nat (List.length words) - overlap_tokens cb) in
        let chunk_text := strip (join " " (slice_to words boundary)) in
        let overlap_text := strip (join " " (slice_from words boundary)) in
        (Some chunk_text,
         set_buffer cb (if decide (overlap_text = EmptyString) then []
                        else [overlap_text]))
  end.

(** [force_flush_chunk]: the hard flush. *)
Definition force_flush_chunk (cb : ChunkBuffer) : option string * ChunkBuffer :=
  match buffer cb with
  | [] => (None, cb)
  | _ :: _ =>
      let full_text := strip (join " " (buffer cb)) in
      (Some full_text, set_buffer cb [])
  end.

(** Which flush a call runs: [flush_chunk], [force_flush_chunk] or none. *)
Inductive flush_method := SoftFlush | HardFlush | NoFlush.

(** The two guards of [add], in the order of the source. *)
Definition add_select (cb : ChunkBuffer) (tokens : Z) : flush_method :=
  if token_target cb <=? tokens then SoftFlush
  else if token_max cb <=? tokens then HardFlush
  else NoFlush.

(** The buffer of [add] after [append] and the update of the time stamp. *)
Definition add_appended (cb : ChunkBuffer) (text : string) (now : Q) : ChunkBuffer :=
  set_last_activity_ts (set_buffer cb (buffer cb ++ [strip text])) now.

(** The token count that a call of [add] computes. *)
Definition add_tokens (cb : ChunkBuffer) (text : string) (now : Q) : Z :=
  approx_token_count (join " " (buffer (add_appended cb text now))).

(** [add]; [now] is what [now_ts()] returns during the call. *)
Definition add (cb : ChunkBuffer) (text : string) (now : Q)
  : option string * ChunkBuffer :=
  let cb1 := add_appended cb text now in
  let tokens := add_tokens cb text now in
  match add_select cb1 tokens with
  | SoftFlush => flush_chunk cb1
  | HardFlush => force_flush_chunk cb1
  | NoFlush => (None, cb1)
  end.

(** [flush_if_idle] *)
Definition flush_if_idle (cb : ChunkBuffer) (idle_seconds : Z) (now : Q)
  : option string * ChunkBuffer :=
  if negb (Qle_bool (now - last_activity_ts cb) (inject_Z idle_seconds))
     && negb (bool_decide (buffer cb = []))
  then flush_chunk cb
  else (None, cb).

(** A run of [add] calls, in order, with the result of each. *)
Fixpoint add_all (cb : ChunkBuffer) (calls : list (string * Q))
  : list (option string) * ChunkBuffer :=
  match calls with
  | [] => ([], cb)
  | (text, now) :: rest =>
      let '(r, cb1) := add cb text now in
      let '(rs, cb2) := add_all cb1 rest in
      (r :: rs, cb2)
  end.

(** The token counts computed along a run of [add] calls. *)
Fixpoint add_counts (cb : ChunkBuffer) (calls : list (string * Q)) : list Z :=
  match calls with
  | [] => []
  | (text, now) :: rest =>
      add_tokens cb text now :: add_counts (snd (add cb text now)) rest
  end.

(** ** The chunker as the orchestrator drives it *)

Definition IDLE_FLUSH_SECONDS : Z := 20.

(** The three methods of [ProcessOrchestrator] that touch the chunker:
    [process_utterance(text, role)], [idle_check()] and [force_flush()]. *)
Inductive entry :=
| ProcessUtterance (text role : string) (now : Q)
| IdleCheck (now : Q)
| ForceFlush.

(** The chunk each of them obtains, and the chunker afterwards. *)
Definition chunker_call (cb : ChunkBuffer) (e : entry)
  : option string * ChunkBuffer :=
  match e with
  | ProcessUtterance text role now =>
      if decide (role = "QUESTION") then (None, cb)
      else if decide (role = "ANSWER") then add cb text now
      else (None, cb)
  | IdleCheck now => flush_if_idle cb IDLE_FLUSH_SECONDS now
  | ForceFlush => force_flush_chunk cb
  end.

(** The flush each of them runs. *)
Definition entry_flush (cb : ChunkBuffer) (e : entry) : flush_method :=
  match e with
  | ProcessUtterance text role now =>
      if decide (role = "QUESTION") then NoFlush
      else if decide (role = "ANSWER")
           then add_select (add_appended cb text now) (add_tokens cb text now)
           else NoFlush
  | IdleCheck now =>
      if negb (Qle_bool (now - last_activity_ts cb) (inject_Z IDLE_FLUSH_SECONDS))
         && negb (bool_decide (buffer cb = []))
      then SoftFlush else NoFlush
  | ForceFlush => HardFlush
  end.

(** The chunker on which that flush runs. *)
Definition entry_buffer (cb : ChunkBuffer) (e : entry) : ChunkBuffer :=
  match e with
  | ProcessUtterance text role now =>
      if decide (role = "QUESTION") then cb
      else if decide (role = "ANSWER") then add_appended cb text now
      else cb
  | _ => cb
  end.

(** ** JSON values and the outcome of a call *)

(** What [json.loads] returns.  An object is a Python [dict]. *)
#[warnings="-register-all"] Inductive json :=
| JNull
| JBool (b : bool)
| JNumber (q : Q)
| JString (s : string)
| JArray (l : list json)
| JObject (m : gmap string json).

(** Python truth value of a decoded JSON value. *)
Definition truthy (v : json) : bool :=
  match v with
  | JNull => false
  | JBool b => b
  | JNumber q => negb (Qeq_bool q 0)
  | JString s => negb (bool_decide (s = EmptyString))
  | JArray l => negb (bool_decide (l = []))
  | JObject m => negb (bool_decide (m = ∅))
  end.

(** [x or y] *)
Definition py_or (x y : json) : json := if truthy x then x else y.

(** Exceptions that leave the functions below: whatever the completion
    client raised, and the [AttributeError] of a method call on a value
    that has no such method. *)
Inductive exn :=
| ClientError (detail : string)
| AttributeError.

Inductive result (A : Type) :=
| Ok (a : A)
| Raise (e : exn).
Arguments Ok {A} a.
Arguments Raise {A} e.

Definition bind {A B} (r : result A) (k : A -> result B) : result B :=
  match r with
  | Ok a => k a
  | Raise e => Raise e
  end.

Notation "'let*' x ':=' r 'in' k" := (bind r (fun x => k))
  (at level 10, x name, r at level 100, k at level 200).

(** Outcome of [client.chat.completions.create(...)] followed by
    [resp.choices[0].message.content]: an exception, or the content of the
    first choice, which may be [None]. *)
Inductive completion :=
| CompletionRaises (e : exn)
| CompletionContent (content : option string).

(** ** Global process memory schema *)

Definition empty_process_memory : gmap string json :=
  list_to_map
    [ ("title", JNull);
      ("overview", JString "");
      ("actors", JArray []);
      ("inputs", JArray []);
      ("outputs", JArray []);
      ("preconditions", JArray []);
      ("postconditions", JArray []);
      ("main_flow", JArray []);
      ("alternate_paths", JArray []);
      ("exceptions", JArray []);
      ("business_rules", JArray []);
      ("tools_systems", JArray []);
      ("metrics_slas", JArray []);
      ("risks_controls", JArray []);
      ("glossary", JArray []);
      ("open_questions", JArray []);
      ("assumptions", JArray []) ].

(** ** LLM helpers *)

Module PyText.

Definition newline : string := String (ascii_of_N 10) EmptyString.

(** Line boundaries of [str.splitlines] below 256: LF, VT, FF, CR, FS, GS,
    RS and NEL; CR LF counts once. *)
Definition is_linebreak (c : ascii) : bool :=
  let n := N_of_ascii c in
  (((10 <=? n) && (n <=? 13)) || ((28 <=? n) && (n <=? 30)) || (n =? 133))%N.

(** [s.splitlines()]; [cur] is the line being read. *)
Fixpoint splitlines_go (cur : string) (s : string) : list string :=
  match s with
  | EmptyString => if decide (cur = EmptyString) then [] else [cur]
  | String c s' =>
      if is_linebreak c then
        match s' with
        | String c' s'' =>
            if (N_of_ascii c =? 13)%N && (N_of_ascii c' =? 10)%N
            then cur :: splitlines_go EmptyString s''
            else cur :: splitlines_go EmptyString s'
        | EmptyString => [cur]
        end
      else splitlines_go (cur +:+ String c EmptyString) s'
  end.

Definition splitlines (s : string) : list string := splitlines_go EmptyString s.

(** [s.find(c)] and [s.rfind(c)] for a one-character [c]; [-1] when absent. *)
Fixpoint find (c : ascii) (s : string) : Z :=
  match s with
  | EmptyString => -1
  | String a s' =>
      if decide (a = c) then 0
      else let r := find c s' in if r =? -1 then -1 else r + 1
  end.

Fixpoint rfind (c : ascii) (s : string) : Z :=
  match s with
  | EmptyString => -1
  | String a s' =>
      let r := rfind c s' in
      if r =? -1 then (if decide (a = c) then 0 else -1) else r + 1
  end.

(** [s[i:j]] for [0 <= i]. *)
Definition slice (s : string) (i j : Z) : string :=
  substring (Z.to_nat i) (Z.to_nat (j - i)) s.

End PyText.

Import PyText.

Section LLM.

(** [json.loads]; [None] when it raises. *)
Variable json_loads : string -> option json.

(** The text that [llm_json_completion] decodes: the content, or ["{}"] in
    its place when it is [None] or empty, trimmed, and without the lines of
    a code fence when it starts with one. *)
Definition response_text (c : option string) : string :=
  let content :=
    match c with
    | Some s => if decide (s = EmptyString) then "{}" else s
    | None => "{}"
    end in
  let text := strip content in
  if startswith text "```"
  then join newline
         (filter (fun line => negb (startswith (strip line) "```")) (splitlines text))
  else text.

(** [llm_json_completion], given how the completion call ends. *)
Definition llm_json_completion (resp : completion) : result json :=
  match resp with
  | CompletionRaises e => Raise e
  | CompletionContent c =>
      let text := response_text c in
      match json_loads text with
      | Some v => Ok v
      | None =>
          let start := find "{"%char text in
          let end_ := rfind "}"%char text in
          if negb (start =? -1) && negb (end_ =? -1) && (start <? end_)
          then match json_loads (slice text start (end_ + 1)) with
               | Some v => Ok v
               | None => Ok (JObject ∅)
               end
          else Ok (JObject ∅)
      end
  end.

(** ** Q/A classification *)

Inductive Role := QUESTION | ANSWER.

Definition q_starts : list string :=
  ["how "; "what "; "when "; "where "; "why "; "who "; "which "; "can ";
   "could "; "would "; "do "; "does "; "did "; "please explain";
   "walk me through"].

Definition request_starts : list string :=
  ["describe "; "outline "; "explain "; "detail "; "tell me "].

Definition heuristic_role_classify (text : string) : Role :=
  let t := lower (strip text) in
  if decide (t = EmptyString) then ANSWER
  else if endswith t "?" then QUESTION
  else if startswith_any t q_starts then QUESTION
  else if startswith_any t request_starts then QUESTION
  else ANSWER.

(** [classify_role]; [mode] is [ROLE_CLASSIFIER_MODE]. *)
Definition classify_role (mode : string) (text : string) (resp : completion)
  : result Role :=
  if decide (mode = "heuristic") then Ok (heuristic_role_classify text)
  else
    let* res := llm_json_completion resp in
    match res with
    | JObject d =>
        let got := match d !! "role" with Some v => v | None => JNull end in
        match py_or got (JString "ANSWER") with
        | JString s =>
            let role := upper s in
            Ok (if decide (role = "QUESTION") then QUESTION else ANSWER)
        | _ => Raise AttributeError
        end
    | _ => Raise AttributeError
    end.

(** ** Merge models *)

(** [{k: merged.get(k, v) for k, v in base.items()}] *)
Definition backfill_entries (base merged : gmap string json) : gmap string json :=
  map_imap (fun k v => Some (default v (merged !! k))) base.

(** [d.update(e)] *)
Definition dict_update (d e : gmap string json) : gmap string json := e ∪ d.

(** [merge_models]; the prompt built from [a] and [b] goes to the service,
    whose answer is [resp]. *)
Definition merge_models (a : gmap string json) (b : json) (resp : completion)
  : result (gmap string json) :=
  let* merged := llm_json_completion resp in
  let base := empty_process_memory in
  match merged with
  | JObject m => Ok (dict_update base (backfill_entries base m))
  | _ => Raise AttributeError
  end.

(** ** Orchestrator: segment processing

    [process_chunk] suspends at its two [await]s and at the entry of
    [async with self.lock]; between two such points a routine runs alone
    (cooperative scheduling).  A routine is at one of these points, or has
    returned, or has raised. *)
Inductive routine :=
| Extracting
| Waiting (extracted : json)
| Merging (a : gmap string json) (extracted : json)
| Finished
| Failed (e : exn).

(** The orchestrator with its routines in flight.  [merges] counts the
    executions of the statement under the lock that ran to their end. *)
Record pipeline := mkPipeline {
  memory : gmap string json;
  locked : bool;
  routines : list routine;
  merges : nat
}.

(** One routine moves from one suspension point to the next; [resp] is the
    outcome of the completion call it was waiting for.
    - [step_extract]: [extracted = await llm_json_completion(...)] returns.
    - [step_acquire]: the lock is free; the routine takes it and calls
      [merge_models(self.memory, extracted)], which reads [self.memory].
    - [step_merge]: [merge_models] returns, [self.memory] is assigned and
      the lock released on leaving the [async with] block.
    - [step_extract_raise], [step_merge_raise]: the awaited call raises; the
      [async with] block releases the lock on the way out. *)
Inductive step : pipeline -> pipeline -> Prop :=
| step_extract st i resp v :
    routines st !! i = Some Extracting ->
    llm_json_completion resp = Ok v ->
    step st (mkPipeline (memory st) (locked st)
               (<[i := Waiting v]> (routines st)) (merges st))
| step_extract_raise st i resp e :
    routines st !! i = Some Extracting ->
    llm_json_completion resp = Raise e ->
    step st (mkPipeline (memory st) (locked st)
               (<[i := Failed e]> (routines st)) (merges st))
| step_acquire st i v :
    routines st !! i = Some (Waiting v) ->
    locked st = false ->
    step st (mkPipeline (memory st) true
               (<[i := Merging (memory st) v]> (routines st)) (merges st))
| step_merge st i a v resp m :
    routines st !! i = Some (Merging a v) ->
    merge_models a v resp = Ok m ->
    step st (mkPipeline m false
               (<[i := Finished]> (routines st)) (S (merges st)))
| step_merge_raise st i a v resp e :
    routines st !! i = Some (Merging a v) ->
    merge_models a v resp = Raise e ->
    step st (mkPipeline (memory st) false
               (<[i := Failed e]> (routines st)) (merges st)).

(** [n] routines started on a fresh orchestrator. *)
Definition started (n : nat) : pipeline :=
  mkPipeline empty_process_memory false (replicate n Extracting) 0.

(** What a step does, as an observer of the routines records it: the
    routine that moves and what it moves with.  [Acquired] is the entry of
    [async with self.lock]; [Merged] is the return of [merge_models] for the
    extracted value [v] on the completion [resp], with the assignment to
    [self.memory] and the release of the lock; [MergeRaised] is the release
    of the lock by an exception. *)
Inductive event :=
| Extracted (i : nat) (v : json)
| ExtractRaised (i : nat) (e : exn)
| Acquired (i : nat)
| Merged (i : nat) (v : json) (resp : completion)
| MergeRaised (i : nat) (e : exn).

(** [step], with the event of each step. *)
Inductive step_logged : pipeline -> event -> pipeline -> Prop :=
| logged_extract st i resp v :
    routines st !! i = Some Extracting ->
    llm_json_completion resp = Ok v ->
    step_logged st (Extracted i v)
      (mkPipeline (memory st) (locked st)
         (<[i := Waiting v]> (routines st)) (merges st))
| logged_extract_raise st i resp e :
    routines st !! i = Some Extracting ->
    llm_json_completion resp = Raise e ->
    step_logged st (ExtractRaised i e)
      (mkPipeline (memory st) (locked st)
         (<[i := Failed e]> (routines st)) (merges st))
| logged_acquire st i v :
    routines st !! i = Some (Waiting v) ->
    locked st = false ->
    step_logged st (Acquired i)
      (mkPipeline (memory st) true
         (<[i := Merging (memory st) v]> (routines st)) (merges st))
| logged_merge st i a v resp m :
    routines st !! i = Some (Merging a v) ->
    merge_models a v resp = Ok m ->
    step_logged st (Merged i v resp)
      (mkPipeline m false
         (<[i := Finished]> (routines st)) (S (merges st)))
| logged_merge_raise st i a v resp e :
    routines st !! i = Some (Merging a v) ->
    merge_models a v resp = Raise e ->
    step_logged st (MergeRaised i e)
      (mkPipeline (memory st) false
         (<[i := Failed e]> (routines st)) (merges st)).

(** The runs of [n] routines started together: the events in the order in
    which they happened, and the state reached. *)
Inductive run (n : nat) : list event -> pipeline -> Prop :=
| run_start : run n [] (started n)
| run_step evs st ev st' :
    run n evs st -> step_logged st ev st' -> run n (evs ++ [ev]) st'.

(** The merges of a list of events carried out one after the other, each on
    the model that the one before returned; [None] if one of them raises. *)
Fixpoint replay (mem : gmap string json) (evs : list event)
  : option (gmap string json) :=
  match evs with
  | [] => Some mem
  | Merged _ v resp :: rest =>
      match merge_models mem v resp with
      | Ok m => replay m rest
      | Raise _ => None
      end
  | _ :: rest => replay mem rest
  end.

End LLM.

(** A decoder for the examples: it knows the text of the empty object and
    rejects the rest.  [json.loads] does the same on every text used below
    (["{}"], and texts that are not JSON). *)
Definition loads_empty_object (s : string) : option json :=
  if decide (s = "{}") then Some (JObject ∅) else None.

(** The interrogative words and request verbs as the specification lists
    them, for comparison with [q_starts] and [request_starts]. *)
Definition listed_interrogatives : list string :=
  ["how"; "what"; "when"; "where"; "why"; "who"; "which"; "can"; "could";
   "would"; "do"; "does"; "did"; "please explain"; "walk me through"].

Definition listed_requests : list string :=
  ["describe"; "outline"; "explain"; "detail"; "tell me"].


(** ** Further utilities *)

(** [str.isalnum] on one code point below 256: the ASCII digits and
    letters, the ordinal indicators, the superscript digits, the micro sign,
    the vulgar fractions and the Latin-1 letters. *)
Definition is_alnum (c : ascii) : bool :=
  let n := N_of_ascii c in
  (((48 <=? n) && (n <=? 57)) || ((65 <=? n) && (n <=? 90))
   || ((97 <=? n) && (n <=? 122))
   || (n =? 170) || (n =? 178) || (n =? 179) || (n =? 181) || (n =? 185)
   || (n =? 186) || ((188 <=? n) && (n <=? 190))
   || ((192 <=? n) && (n <=? 214)) || ((216 <=? n) && (n <=? 246))
   || ((248 <=? n) && (n <=? 255)))%N.

(** [slug]: every character lower-cased if alphanumeric, an underscore
    otherwise; the first 40 characters of that. *)
Definition slug_char (c : ascii) : ascii :=
  if is_alnum c then lower_char c else "_"%char.

Definition slug (s : string) : string :=
  substring 0 40 (map_chars slug_char s).

(** [s.split(sep)] for a non-empty [sep]: the pieces between the
    occurrences of [sep], found from left to right without overlap.  [skip]
    counts the characters of the occurrence being passed, [cur] is the piece
    being read. *)
Fixpoint split_on_go (sep : string) (skip : nat) (cur : string) (s : string)
  : list string :=
  match s with
  | EmptyString => [cur]
  | String c s' =>
      match skip with
      | S k => split_on_go sep k cur s'
      | O =>
          if startswith s sep
          then cur :: split_on_go sep (String.length sep - 1) EmptyString s'
          else split_on_go sep 0 (cur +:+ String c EmptyString) s'
      end
  end.

Definition split_on (sep : string) (s : string) : list string :=
  split_on_go sep 0 EmptyString s.

(** The separator of [process_markdown_transcript]: a backslash, an [n], a
    backslash, an [n]. *)
Definition PARAGRAPH_SEP : string := "\n\n".

(** [[p.strip() for p in content.split(sep) if p.strip()]] *)
Definition paragraphs (content : string) : list string :=
  map strip
    (List.filter (fun p => negb (bool_decide (strip p = EmptyString)))
       (split_on PARAGRAPH_SEP content)).

(** ** Orchestrator: the methods, one call at a time

    Each method is run to its end before the next call, as
    [process_markdown_transcript] does by awaiting it; the lock is then free
    at every entry.  What the completion service answers is an input. *)

Definition CHUNK_TOKEN_TARGET : Z := 800.
Definition CHUNK_TOKEN_MAX : Z := 1100.
Definition CHUNK_OVERLAP : Z := 120.

(** [ProcessOrchestrator]: [memory], [answer_chunker], [recent_questions]. *)
Record ProcessOrchestrator := mkOrchestrator {
  self_memory : gmap string json;
  answer_chunker : ChunkBuffer;
  recent_questions : list string
}.

(** [ProcessOrchestrator()]; [now] is the time of the construction. *)
Definition new_orchestrator (now : Q) : ProcessOrchestrator :=
  mkOrchestrator empty_process_memory
    (mkChunkBuffer CHUNK_OVERLAP CHUNK_TOKEN_TARGET CHUNK_TOKEN_MAX now [])
    [].

(** [d.append(x)] on a [deque(maxlen=n)]: a full deque drops its oldest
    entry. *)
Definition deque_append (maxlen : nat) (d : list string) (x : string)
  : list string :=
  if (maxlen <=? List.length d)%nat then drop 1 d ++ [x] else d ++ [x].

(** The context line of [process_chunk]:
    ["; ".join(list(recent_questions)[-3:])], or a fixed text when there is
    no question. *)
Definition recent_q_text (qs : list string) : string :=
  match qs with
  | [] => "No recent questions"
  | _ :: _ => join "; " (drop (List.length qs - 3) qs)
  end.

(** What a call leaves: the orchestrator, the extraction requests it made
    (context line and segment, the two values put into the template) and the
    exception it raised, if any. *)
Record outcome := mkOutcome {
  after : ProcessOrchestrator;
  sent : list (string * string);
  raised : option exn
}.

(** [if chunk:] holds for a non-empty string. *)
Definition chunk_ready (chunk : option string) : option string :=
  match chunk with
  | Some seg => if decide (seg = EmptyString) then None else Some seg
  | None => None
  end.

Section Orchestrator.

Variable json_loads : string -> option json.

(** [process_chunk]; [resp_e] and [resp_m] are the outcomes of the
    extraction and of the merge completion. *)
Definition process_chunk (o : ProcessOrchestrator) (segment : string)
    (resp_e resp_m : completion) : outcome :=
  let request := (recent_q_text (recent_questions o), segment) in
  match llm_json_completion json_loads resp_e with
  | Raise e => mkOutcome o [request] (Some e)
  | Ok extracted =>
      match merge_models json_loads (self_memory o) extracted resp_m with
      | Raise e => mkOutcome o [request] (Some e)
      | Ok m =>
          mkOutcome (mkOrchestrator m (answer_chunker o) (recent_questions o))
            [request] None
      end
  end.

(** The end of the three methods: [if chunk: await self.process_chunk(chunk)]
    on the chunker as the call left it. *)
Definition process_if_ready (o : ProcessOrchestrator)
    (r : option string * ChunkBuffer) (resp_e resp_m : completion) : outcome :=
  let o' := mkOrchestrator (self_memory o) (snd r) (recent_questions o) in
  match chunk_ready (fst r) with
  | Some seg => process_chunk o' seg resp_e resp_m
  | None => mkOutcome o' [] None
  end.

(** [process_utterance] *)
Definition process_utterance (o : ProcessOrchestrator) (text role : string)
    (now : Q) (resp_e resp_m : completion) : outcome :=
  if decide (role = "QUESTION")
  then mkOutcome
         (mkOrchestrator (self_memory o) (answer_chunker o)
            (deque_append 6 (recent_questions o) (strip text)))
         [] None
  else if decide (role = "ANSWER")
  then process_if_ready o (add (answer_chunker o) text now) resp_e resp_m
  else mkOutcome o [] None.

(** [idle_check] *)
Definition idle_check (o : ProcessOrchestrator) (now : Q)
    (resp_e resp_m : completion) : outcome :=
  process_if_ready o (flush_if_idle (answer_chunker o) IDLE_FLUSH_SECONDS now)
    resp_e resp_m.

(** [force_flush] *)
Definition force_flush (o : ProcessOrchestrator)
    (resp_e resp_m : completion) : outcome :=
  process_if_ready o (force_flush_chunk (answer_chunker o)) resp_e resp_m.

(** One call of one of the three methods. *)
Definition orchestrate (o : ProcessOrchestrator) (e : entry)
    (resp_e resp_m : completion) : outcome :=
  match e with
  | ProcessUtterance text role now => process_utterance o text role now resp_e resp_m
  | IdleCheck now => idle_check o now resp_e resp_m
  | ForceFlush => force_flush o resp_e resp_m
  end.

(** Calls one after the other, each with the two completions it may need;
    the orchestrator stays as a raising call left it. *)
Fixpoint orchestrate_all (o : ProcessOrchestrator)
    (calls : list (entry * completion * completion)) : outcome :=
  match calls with
  | [] => mkOutcome o [] None
  | (e, resp_e, resp_m) :: rest =>
      let r := orchestrate o e resp_e resp_m in
      let r' := orchestrate_all (after r) rest in
      mkOutcome (after r') (sent r ++ sent r')
        (match raised r with Some x => Some x | None => raised r' end)
  end.

(** What the loop of [process_markdown_transcript] is given for one
    paragraph: the time of the call of [add] and the outcomes of the
    classification, extraction and merge completions. *)
Record paragraph_input := mkParagraphInput {
  at_time : Q;
  resp_classify : completion;
  resp_extract : completion;
  resp_merge : completion
}.

Definition role_name (r : Role) : string :=
  match r with QUESTION => "QUESTION" | ANSWER => "ANSWER" end.

(** The body of the loop; [interview] is [ENABLE_INTERVIEW_MODE], [mode] is
    [ROLE_CLASSIFIER_MODE]. *)
Definition handle_paragraph (interview : bool) (mode : string)
    (o : ProcessOrchestrator) (paragraph : string) (inp : paragraph_input)
  : outcome :=
  if decide (paragraph = EmptyString) then mkOutcome o [] None
  else if negb interview
  then process_utterance o paragraph "ANSWER" (at_time inp)
         (resp_extract inp) (resp_merge inp)
  else match classify_role json_loads mode paragraph (resp_classify inp) with
       | Raise e => mkOutcome o [] (Some e)
       | Ok role =>
           process_utterance o paragraph (role_name role) (at_time inp)
             (resp_extract inp) (resp_merge inp)
       end.

(** The loop: it ends at the first exception. *)
Fixpoint process_paragraphs (interview : bool) (mode : string)
    (o : ProcessOrchestrator) (ps : list string) (inputs : list paragraph_input)
  : outcome :=
  match ps, inputs with
  | p :: ps', inp :: inputs' =>
      let r := handle_paragraph interview mode o p inp in
      match raised r with
      | Some e => r
      | None =>
          let r' := process_paragraphs interview mode (after r) ps' inputs' in
          mkOutcome (after r') (sent r ++ sent r') (raised r')
      end
  | _, _ => mkOutcome o [] None
  end.

(** [process_markdown_transcript] up to the final flush, before the
    documents are written; [inputs] has an entry for each paragraph. *)
Definition process_markdown_transcript (interview : bool) (mode : string)
    (content : string) (start : Q) (inputs : list paragraph_input)
    (final_e final_m : completion) : outcome :=
  let r := process_paragraphs interview mode (new_orchestrator start)
             (paragraphs content) inputs in
  match raised r with
  | Some e => r
  | None =>
      let r' := force_flush (after r) final_e final_m in
      mkOutcome (after r') (sent r ++ sent r') (raised r')
  end.

End Orchestrator.

(** ** Labels of the diagram ([process_doc_utils.py])

    [wrap_text], the helper of [render_diagrams_png] that [finalize_documents]
    reaches.  The state of its loop: the lines closed so far, the words of
    the line being filled, and the length counted for it. *)
Record wrap_state := mkWrap {
  wrap_lines : list string;
  current_line : list string;
  current_length : Z
}.

Definition str_len (s : string) : Z := Z.of_nat (String.length s).

(** [if current_line: lines.append(' '.join(current_line))] *)
Definition close_line (lines current : list string) : list string :=
  match current with
  | [] => lines
  | _ :: _ => lines ++ [join " " current]
  end.

(** The body of the loop over the words. *)
Definition wrap_step (max_length : Z) (st : wrap_state) (w : string)
  : wrap_state :=
  if current_length st + str_len w + 1 <=? max_length
  then mkWrap (wrap_lines st) (current_line st ++ [w])
         (current_length st + str_len w + 1)
  else mkWrap (close_line (wrap_lines st) (current_line st)) [w] (str_len w).

(** The lines of a text that is longer than [max_length], before the cut to
    three lines. *)
Definition wrapped_lines (text : string) (max_length : Z) : list string :=
  let st := fold_left (wrap_step max_length) (split text) (mkWrap [] [] 0) in
  close_line (wrap_lines st) (current_line st).

(** The separator of the lines: a backslash and an [n]. *)
Definition LINE_SEP : string := "\n".

(** [wrap_text] *)
Definition wrap_text (text : string) (max_length : Z) : string :=
  if bool_decide (text = EmptyString) || (str_len text <=? max_length)
  then text
  else join LINE_SEP (take 3 (wrapped_lines text max_length)).

(** ** Vocabulary of the properties *)

(** A text without white space. *)
Fixpoint no_space (s : string) : bool :=
  match s with
  | EmptyString => true
  | String c s' => negb (is_space c) && no_space s'
  end.

(** A word: what [split] produces. *)
Definition word (w : string) : Prop := w <> EmptyString /\ no_space w = true.

(** The tokens of the pending concatenation, as [flush_chunk] sees them. *)
Definition pending_tokens (cb : ChunkBuffer) : list string :=
  split (strip (join " " (buffer cb))).

(** Sum of a weight over the routines. *)
Fixpoint total (f : routine -> nat) (l : list routine) : nat :=
  match l with
  | [] => 0%nat
  | r :: l' => (f r + total f l')%nat
  end.

Definition merging (r : routine) : nat :=
  match r with Merging _ _ => 1%nat | _ => 0%nat end.

Definition finished (r : routine) : nat :=
  match r with Finished => 1%nat | _ => 0%nat end.

(** Suspension points a routine still has to pass. *)
Definition remaining (r : routine) : nat :=
  match r with
  | Extracting => 3%nat
  | Waiting _ => 2%nat
  | Merging _ _ => 1%nat
  | Finished | Failed _ => 0%nat
  end.

(** Routines inside the block guarded by the lock. *)
Definition in_critical (st : pipeline) : nat := total merging (routines st).

(** The states that [n] routines started together can be in. *)
Definition reachable (json_loads : string -> option json) (n : nat)
    (st : pipeline) : Prop :=
  rtc (step json_loads) (started n) st.

(** What every reachable state satisfies. *)
Definition invariant (n : nat) (st : pipeline) : Prop :=
  in_critical st = (if locked st then 1%nat else 0%nat)
  /\ merges st = total finished (routines st)
  /\ List.length (routines st) = n.

(** The lock run over a list of events: who holds it after them, or [None]
    if they cannot happen in this order, the lock being taken only when it
    is free and given back only by the routine that took it. *)
Fixpoint lock_after (holder : option nat) (evs : list event)
  : option (option nat) :=
  match evs with
  | [] => Some holder
  | Acquired i :: rest =>
      match holder with
      | None => lock_after (Some i) rest
      | Some _ => None
      end
  | Merged i _ _ :: rest =>
      if decide (holder = Some i) then lock_after None rest else None
  | MergeRaised i _ :: rest =>
      if decide (holder = Some i) then lock_after None rest else None
  | _ :: rest => lock_after holder rest
  end.

(** The routines whose merge ran to its end, in that order. *)
Fixpoint merged_by (evs : list event) : list nat :=
  match evs with
  | [] => []
  | Merged i _ _ :: rest => i :: merged_by rest
  | _ :: rest => merged_by rest
  end.

(** The routines that took the lock, and those that gave it back (by a
    merge that returned or one that raised), in that order. *)
Fixpoint acquired_by (evs : list event) : list nat :=
  match evs with
  | [] => []
  | Acquired i :: rest => i :: acquired_by rest
  | _ :: rest => acquired_by rest
  end.

Fixpoint released_by (evs : list event) : list nat :=
  match evs with
  | [] => []
  | Merged i _ _ :: rest => i :: released_by rest
  | MergeRaised i _ :: rest => i :: released_by rest
  | _ :: rest => released_by rest
  end.

(** The holder of the lock, as a list. *)
Definition holder_list (h : option nat) : list nat :=
  match h with
  | Some i => [i]
  | None => []
  end.

(** The tokens of what a flush returns; nothing returned, no token. *)
Definition tokens_of (r : option string) : list string :=
  match r with
  | Some seg => split seg
  | None => []
  end.

(** A text of white space only. *)
Fixpoint all_space (s : string) : bool :=
  match s with
  | EmptyString => true
  | String c s' => is_space c && all_space s'
  end.

(** The character occurs in the text. *)
Fixpoint has_char (c : ascii) (s : string) : bool :=
  match s with
  | EmptyString => false
  | String a s' => bool_decide (a = c) || has_char c s'
  end.

(** The last [n] entries of a list, all of them when it has fewer. *)
Definition lastn {A : Type} (n : nat) (l : list A) : list A :=
  drop (List.length l - n) l.

(** The questions put by a call, trimmed, and the words a call feeds to the
    chunker. *)
Definition entry_question (e : entry) : list string :=
  match e with
  | ProcessUtterance text role _ =>
      if decide (role = "QUESTION") then [strip text] else []
  | _ => []
  end.

Definition entry_words (e : entry) : list string :=
  match e with
  | ProcessUtterance text role _ =>
      if decide (role = "QUESTION") then []
      else if decide (role = "ANSWER") then split text else []
  | _ => []
  end.

(** The words of the segments of a list of extraction requests. *)
Definition sent_words (reqs : list (string * string)) : list string :=
  concat (map (fun req => split (snd req)) reqs).

(** Two chunkers with the same configuration. *)
Definition same_config (cb cb' : ChunkBuffer) : Prop :=
  overlap_tokens cb' = overlap_tokens cb
  /\ token_target cb' = token_target cb
  /\ token_max cb' = token_max cb.

(** The paragraph goes to the chunker: interview mode is off, or the
    paragraph is classified ANSWER. *)
Definition routed (json_loads : string -> option json) (interview : bool)
    (mode : string) (p : string) (inp : paragraph_input) : bool :=
  negb interview
  || match classify_role json_loads mode p (resp_classify inp) with
     | Ok ANSWER => true
     | _ => false
     end.

(** The words of the paragraphs that go to the chunker, in order. *)
Fixpoint routed_words (json_loads : string -> option json) (interview : bool)
    (mode : string) (ps : list string) (inputs : list paragraph_input)
  : list string :=
  match ps, inputs with
  | p :: ps', inp :: inputs' =>
      (if routed json_loads interview mode p inp then split p else [])
      ++ routed_words json_loads interview mode ps' inputs'
  | _, _ => []
  end.

(** The model that a routine inside the block has read is the memory. *)
Definition fresh (st : pipeline) : Prop :=
  forall i a v, routines st !! i = Some (Merging a v) -> a = memory st.

(** A line of a wrapped label fits the width or is one word. *)
Definition line_ok (max_length : Z) (l : string) : Prop :=
  l <> EmptyString /\ (str_len l <= max_length \/ word l).

(** What the loop of [wrap_text] keeps true. *)
Definition wrap_inv (max_length : Z) (st : wrap_state) : Prop :=
  Forall word (current_line st)
  /\ Forall (line_ok max_length) (wrap_lines st)
  /\ ((current_line st = [] /\ current_length st = 0)
      \/ (str_len (join " " (current_line st)) <= current_length st
          /\ (current_length st <= max_length
              \/ exists w, current_line st = [w]))).

Definition wrap_words (st : wrap_state) : list string :=
  concat (map split (wrap_lines st)) ++ current_line st.

(** * Properties *)

(** ** Words and trimming *)

Module PyStrFacts.

Lemma sapp_nil (t : string) : EmptyString +:+ t = t.
Proof. reflexivity. Qed.

Lemma sapp_cons (c : ascii) (s t : string) :
  String c s +:+ t = String c (s +:+ t).
Proof. reflexivity. Qed.

Lemma sapp_empty_r (s : string) : s +:+ EmptyString = s.
Proof.
  induction s as [|c s IH]; [reflexivity|]. now rewrite sapp_cons, IH.
Qed.

Lemma sapp_assoc (a b c : string) : (a +:+ b) +:+ c = a +:+ (b +:+ c).
Proof.
  induction a as [|x a IH]; [reflexivity|]. now rewrite !sapp_cons, IH.
Qed.

Lemma sapp_nonempty_r (a b : string) : b <> EmptyString -> a +:+ b <> EmptyString.
Proof. destruct a; [now rewrite sapp_nil | rewrite sapp_cons; discriminate]. Qed.

Lemma sapp_nonempty_l (a b : string) : a <> EmptyString -> a +:+ b <> EmptyString.
Proof. destruct a; [congruence | rewrite sapp_cons; discriminate]. Qed.

Lemma no_space_app (a b : string) :
  no_space (a +:+ b) = no_space a && no_space b.
Proof.
  induction a as [|x a IH]; [reflexivity|].
  rewrite sapp_cons. simpl. rewrite IH. now rewrite andb_assoc.
Qed.

Lemma split_go_words (s cur : string) :
  no_space cur = true -> Forall word (split_go cur s).
Proof.
  revert cur. induction s as [|c s IH]; intros cur Hcur; simpl.
  - destruct (decide (cur = EmptyString)); constructor; [split|]; auto.
  - destruct (is_space c) eqn:Hc.
    + destruct (decide (cur = EmptyString)).
      * now apply IH.
      * constructor; [split; auto | now apply IH].
    + apply IH. rewrite no_space_app. simpl. now rewrite Hcur, Hc.
Qed.

Lemma split_words (s : string) : Forall word (split s).
Proof. now apply split_go_words. Qed.

Lemma split_go_word (w cur rest : string) :
  no_space w = true -> split_go cur (w +:+ rest) = split_go (cur +:+ w) rest.
Proof.
  revert cur. induction w as [|c w IH]; intros cur Hw.
  - now rewrite sapp_nil, sapp_empty_r.
  - simpl in Hw. apply andb_prop in Hw as [Hc Hw].
    apply negb_true_iff in Hc. rewrite sapp_cons. simpl. rewrite Hc.
    rewrite IH by assumption. now rewrite sapp_assoc.
Qed.

Lemma join_cons2 (sep x y : string) (l : list string) :
  join sep (x :: y :: l) = x +:+ sep +:+ join sep (y :: l).
Proof. reflexivity. Qed.

Lemma split_go_blank (cur rest : string) :
  cur <> EmptyString ->
  split_go cur (String " " rest) = cur :: split_go EmptyString rest.
Proof.
  intros Hne. simpl. destruct (decide (cur = EmptyString)); congruence.
Qed.

(** [split] undoes [join] on words. *)
Lemma split_join (ws : list string) :
  Forall word ws -> split (join " " ws) = ws.
Proof.
  unfold split. induction ws as [|w [|w' ws] IH]; intros Hws.
  - reflexivity.
  - apply Forall_cons_1 in Hws as [[Hne Hw] _]. simpl.
    rewrite <- (sapp_empty_r w) at 1.
    rewrite split_go_word by assumption. rewrite sapp_nil. simpl.
    destruct (decide (w = EmptyString)); congruence.
  - apply Forall_cons_1 in Hws as [[Hne Hw] Hrest].
    rewrite join_cons2, split_go_word by assumption.
    rewrite sapp_nil, sapp_cons, sapp_nil, split_go_blank by assumption.
    now rewrite IH.
Qed.

Lemma join_words_nonempty (ws : list string) :
  Forall word ws -> ws <> [] -> join " " ws <> EmptyString.
Proof.
  destruct ws as [|w [|w' ws]]; intros Hws Hne; [congruence| |].
  - apply Forall_cons_1 in Hws as [[H _] _]. exact H.
  - apply Forall_cons_1 in Hws as [[H _] _]. rewrite join_cons2.
    now apply sapp_nonempty_l.
Qed.

Lemma lstrip_join_words (ws : list string) :
  Forall word ws -> lstrip (join " " ws) = join " " ws.
Proof.
  destruct ws as [|w ws]; intros Hws; [reflexivity|].
  apply Forall_cons_1 in Hws as [[Hne Hw] _].
  destruct w as [|c w]; [congruence|].
  simpl in Hw. apply andb_prop in Hw as [Hc _]. apply negb_true_iff in Hc.
  destruct ws; [|rewrite join_cons2, sapp_cons]; simpl; now rewrite Hc.
Qed.

Lemma rstrip_word (w : string) : no_space w = true -> rstrip w = w.
Proof.
  induction w as [|c w IH]; intros Hw; [reflexivity|].
  simpl in Hw. apply andb_prop in Hw as [Hc Hw]. apply negb_true_iff in Hc.
  simpl. rewrite IH by assumption. rewrite Hc. now destruct w.
Qed.

Lemma rstrip_app_fixed (p s : string) :
  rstrip s = s -> s <> EmptyString -> rstrip (p +:+ s) = p +:+ s.
Proof.
  intros Hs Hne. induction p as [|c p IH]; [now rewrite sapp_nil|].
  rewrite sapp_cons. simpl. rewrite IH.
  destruct (p +:+ s) eqn:E; [|reflexivity].
  exfalso. apply (sapp_nonempty_r p s Hne). exact E.
Qed.

Lemma rstrip_join_words (ws : list string) :
  Forall word ws -> rstrip (join " " ws) = join " " ws.
Proof.
  induction ws as [|w [|w' ws] IH]; intros Hws.
  - reflexivity.
  - apply Forall_cons_1 in Hws as [[_ Hw] _]. now apply rstrip_word.
  - apply Forall_cons_1 in Hws as [_ Hrest].
    rewrite join_cons2, <- sapp_assoc.
    apply rstrip_app_fixed; [now apply IH|].
    now apply join_words_nonempty.
Qed.

(** Joined words have nothing to trim. *)
Lemma strip_join_words (ws : list string) :
  Forall word ws -> strip (join " " ws) = join " " ws.
Proof.
  intros Hws. unfold strip.
  rewrite lstrip_join_words by assumption. now apply rstrip_join_words.
Qed.

End PyStrFacts.

Import PyStrFacts.

(** ** The chunk buffer *)

Lemma pending_tokens_words (cb : ChunkBuffer) : Forall word (pending_tokens cb).
Proof. apply split_words. Qed.

Lemma pending_tokens_empty (cb : ChunkBuffer) :
  buffer cb = [] -> pending_tokens cb = [].
Proof. unfold pending_tokens. now intros ->. Qed.

Lemma flush_chunk_empty (cb : ChunkBuffer) :
  buffer cb = [] -> flush_chunk cb = (None, cb).
Proof. unfold flush_chunk. now intros ->. Qed.

Lemma flush_chunk_small (cb : ChunkBuffer) :
  buffer cb <> [] ->
  Z.of_nat (List.length (pending_tokens cb)) <= overlap_tokens cb ->
  flush_chunk cb = (Some (strip (join " " (buffer cb))), set_buffer cb []).
Proof.
  unfold flush_chunk, pending_tokens. intros Hne Hle.
  destruct (buffer cb) as [|x l] eqn:Hb; [congruence|].
  destruct (Z.leb_spec (Z.of_nat (List.length (split (strip (join " " (x :: l))))))
              (overlap_tokens cb)); [reflexivity | lia].
Qed.

Lemma flush_chunk_large (cb : ChunkBuffer) :
  buffer cb <> [] ->
  overlap_tokens cb < Z.of_nat (List.length (pending_tokens cb)) ->
  let T := pending_tokens cb in
  let n := Z.to_nat (Z.of_nat (List.length T) - overlap_tokens cb) in
  flush_chunk cb
  = (Some (join " " (take n T)),
     set_buffer cb (if decide (join " " (drop n T) = EmptyString) then []
                    else [join " " (drop n T)])).
Proof.
  intros Hne Hlt T n. fold T in Hlt. unfold flush_chunk.
  destruct (buffer cb) as [|x l] eqn:Hb; [congruence|].
  assert (HT : split (strip (join " " (x :: l))) = T)
    by (unfold T, pending_tokens; now rewrite Hb).
  rewrite HT.
  destruct (Z.leb_spec (Z.of_nat (List.length T)) (overlap_tokens cb)); [lia|].
  unfold slice_to, slice_from.
  replace (Z.to_nat (Z.max 0 (Z.of_nat (List.length T) - overlap_tokens cb)))
    with n by (unfold n; lia).
  assert (Hw : Forall word T) by apply pending_tokens_words.
  rewrite !strip_join_words by (try apply Forall_take; try apply Forall_drop; exact Hw).
  reflexivity.
Qed.

Lemma overlap_tail_nonempty (cb : ChunkBuffer) :
  let T := pending_tokens cb in
  let k := Z.to_nat (overlap_tokens cb) in
  1 <= overlap_tokens cb < Z.of_nat (List.length T) ->
  join " " (drop (List.length T - k) T) <> EmptyString.
Proof.
  intros T k Hk. apply join_words_nonempty.
  - apply Forall_drop, pending_tokens_words.
  - intros Hd. apply (f_equal List.length) in Hd.
    rewrite length_drop in Hd. simpl in Hd. unfold k in Hd. lia.
Qed.

Lemma pending_nonempty (cb : ChunkBuffer) :
  0 < Z.of_nat (List.length (pending_tokens cb)) -> buffer cb <> [].
Proof.
  intros Hpos Hb. rewrite pending_tokens_empty in Hpos by exact Hb.
  simpl in Hpos. lia.
Qed.

(** The buffer that the soft flush leaves. *)
Lemma flush_chunk_after (cb : ChunkBuffer) :
  let T := pending_tokens cb in
  let k := Z.to_nat (overlap_tokens cb) in
  buffer cb <> [] ->
  (Z.of_nat (List.length T) <= overlap_tokens cb \/ overlap_tokens cb <= 0 ->
   snd (flush_chunk cb) = set_buffer cb [])
  /\ (1 <= overlap_tokens cb < Z.of_nat (List.length T) ->
      snd (flush_chunk cb) = set_buffer cb [join " " (drop (List.length T - k) T)]).
Proof.
  intros T k Hne. split.
  - intros Hcase.
    destruct (Z.le_gt_cases (Z.of_nat (List.length T)) (overlap_tokens cb)).
    + now rewrite flush_chunk_small.
    + rewrite flush_chunk_large by (try exact Hne; fold T; lia). fold T. simpl.
      rewrite drop_ge by lia. reflexivity.
  - intros Hk.
    rewrite flush_chunk_large by (try exact Hne; fold T; lia). fold T. simpl.
    replace (Z.to_nat (Z.of_nat (List.length T) - overlap_tokens cb))
      with (List.length T - k)%nat by (unfold k; lia).
    destruct (decide (join " " (drop (List.length T - k) T) = EmptyString)) as [E|_];
      [|reflexivity].
    now destruct (overlap_tail_nonempty cb Hk).
Qed.

(** C2 (as amended).  Let [T] be the tokens of the pending concatenation.
    With [1 <= overlap_tokens < |T|] the soft flush emits the first
    [|T| - overlap_tokens] tokens of [T] joined by single spaces and leaves,
    as the sole pending segment, the last [overlap_tokens] tokens of [T]
    joined by single spaces.  With [overlap_tokens <= 0], below [|T|], and
    some segment pending, it emits all of [T] joined by single spaces and
    leaves no pending segment.  With [|T| <= overlap_tokens] and some
    segment pending, it emits the trimmed pending text and empties the
    buffer; with no pending segment it emits nothing. *)
Theorem flush_chunk_overlap_law (cb : ChunkBuffer) :
  let T := pending_tokens cb in
  let k := Z.to_nat (overlap_tokens cb) in
  (1 <= overlap_tokens cb < Z.of_nat (List.length T) ->
   flush_chunk cb
   = (Some (join " " (take (List.length T - k) T)),
      set_buffer cb [join " " (drop (List.length T - k) T)]))
  /\ (overlap_tokens cb <= 0 -> overlap_tokens cb < Z.of_nat (List.length T) ->
      buffer cb <> [] ->
      flush_chunk cb = (Some (join " " T), set_buffer cb []))
  /\ (Z.of_nat (List.length T) <= overlap_tokens cb -> buffer cb <> [] ->
      flush_chunk cb = (Some (strip (join " " (buffer cb))), set_buffer cb []))
  /\ (buffer cb = [] -> flush_chunk cb = (None, cb)).
Proof.
  intros T k.
  split; [|split; [|split]].
  - intros Hk.
    rewrite flush_chunk_large by (try apply pending_nonempty; fold T; lia).
    fold T.
    replace (Z.to_nat (Z.of_nat (List.length T) - overlap_tokens cb))
      with (List.length T - k)%nat by (unfold k; lia).
    destruct (decide (join " " (drop (List.length T - k) T) = EmptyString)) as [E|_];
      [|reflexivity].
    now destruct (overlap_tail_nonempty cb Hk).
  - intros Hk Hlt Hb.
    rewrite flush_chunk_large by (try exact Hb; fold T; lia).
    fold T.
    rewrite take_ge, drop_ge by lia. reflexivity.
  - intros Hle Hb. now apply flush_chunk_small.
  - apply flush_chunk_empty.
Qed.

(** C2, an instance of each case. *)
Lemma flush_chunk_overlap_law_witness :
  flush_chunk (mkChunkBuffer 2 4 6 0 ["a b"; "c d e"])
  = (Some "a b c", mkChunkBuffer 2 4 6 0 ["d e"])
  /\ flush_chunk (mkChunkBuffer 0 4 6 0 ["a b"; "c d e"])
     = (Some "a b c d e", mkChunkBuffer 0 4 6 0 [])
  /\ flush_chunk (mkChunkBuffer 5 4 6 0 [" a  b"; "c d e "])
     = (Some "a  b c d e", mkChunkBuffer 5 4 6 0 []).
Proof.
  split; [|split].
  - apply (proj1 (flush_chunk_overlap_law (mkChunkBuffer 2 4 6 0 ["a b"; "c d e"]))).
    vm_compute. split; discriminate || reflexivity.
  - apply (proj1 (proj2 (flush_chunk_overlap_law (mkChunkBuffer 0 4 6 0 ["a b"; "c d e"])))).
    + vm_compute. discriminate.
    + vm_compute. reflexivity.
    + discriminate.
  - apply (proj1 (proj2 (proj2 (flush_chunk_overlap_law
             (mkChunkBuffer 5 4 6 0 [" a  b"; "c d e "]))))).
    + vm_compute. discriminate.
    + discriminate.
Defined.

(** C2 as first stated fails without overlap: from two pending tokens and
    [overlap_tokens = 0] the soft flush leaves no pending segment, where the
    statement asks for one (the empty join of the last zero tokens). *)
Lemma flush_chunk_overlap_law_counterexample :
  let cb := mkChunkBuffer 0 800 1100 0 ["a b"] in
  let T := pending_tokens cb in
  overlap_tokens cb < Z.of_nat (List.length T)
  /\ flush_chunk cb = (Some "a b", set_buffer cb [])
  /\ buffer (snd (flush_chunk cb))
     <> [join " " (drop (List.length T - Z.to_nat (overlap_tokens cb)) T)].
Proof.
  vm_compute. split; [reflexivity | split; [reflexivity | discriminate]].
Qed.

Lemma flush_if_idle_some (cb : ChunkBuffer) (idle : Z) (now : Q) (seg : string) :
  fst (flush_if_idle cb idle now) = Some seg ->
  Qle_bool (now - last_activity_ts cb) (inject_Z idle) = false
  /\ buffer cb <> []
  /\ flush_if_idle cb idle now = flush_chunk cb.
Proof.
  unfold flush_if_idle.
  destruct (Qle_bool (now - last_activity_ts cb) (inject_Z idle)); simpl;
    [discriminate|].
  destruct (bool_decide_reflect (buffer cb = [])); simpl; [discriminate|].
  auto.
Qed.

Lemma flush_if_idle_empty (cb : ChunkBuffer) (idle : Z) (now : Q) :
  buffer cb = [] -> flush_if_idle cb idle now = (None, cb).
Proof.
  intros Hb. unfold flush_if_idle. rewrite Hb. simpl.
  now rewrite andb_false_r.
Qed.

Lemma still_idle (last now1 now2 : Q) (idle : Z) :
  (now1 <= now2)%Q ->
  Qle_bool (now1 - last) (inject_Z idle) = false ->
  Qle_bool (now2 - last) (inject_Z idle) = false.
Proof.
  intros Hle H1. destruct (Qle_bool (now2 - last) (inject_Z idle)) eqn:H2;
    [|reflexivity].
  apply Qle_bool_iff in H2.
  assert (H : Qle_bool (now1 - last) (inject_Z idle) = true).
  { apply Qle_bool_iff. eapply Qle_trans; [|exact H2].
    unfold Qminus. apply Qplus_le_compat; [exact Hle | apply Qle_refl]. }
  congruence.
Qed.

(** C3 (as amended).  Let the first of two successive [flush_if_idle] calls
    return a segment.  If the pending tokens did not exceed [overlap_tokens]
    (or [overlap_tokens <= 0]) the buffer is then empty and the second call
    returns nothing.  If [1 <= overlap_tokens < |T|] the first call keeps
    the last [overlap_tokens] tokens, and a second call made no earlier
    returns them as a further segment and empties the buffer.  Either way a
    third call returns nothing. *)
Theorem flush_if_idle_twice (cb : ChunkBuffer) (idle : Z) (now1 now2 : Q)
    (seg : string) :
  fst (flush_if_idle cb idle now1) = Some seg ->
  let cb1 := snd (flush_if_idle cb idle now1) in
  let T := pending_tokens cb in
  let k := Z.to_nat (overlap_tokens cb) in
  (Z.of_nat (List.length T) <= overlap_tokens cb \/ overlap_tokens cb <= 0 ->
   buffer cb1 = [] /\ flush_if_idle cb1 idle now2 = (None, cb1))
  /\ (1 <= overlap_tokens cb < Z.of_nat (List.length T) -> (now1 <= now2)%Q ->
      flush_if_idle cb1 idle now2
      = (Some (join " " (drop (List.length T - k) T)), set_buffer cb []))
  /\ ((now1 <= now2)%Q -> forall now3 : Q,
      fst (flush_if_idle (snd (flush_if_idle cb1 idle now2)) idle now3) = None).
Proof.
  intros Hfirst cb1 T k.
  destruct (flush_if_idle_some _ _ _ _ Hfirst) as (Hidle & Hne & Heq).
  pose proof (flush_chunk_after cb Hne) as (Hafter0 & Hafter1).
  fold T k in Hafter0, Hafter1.
  assert (Hdrained :
    Z.of_nat (List.length T) <= overlap_tokens cb \/ overlap_tokens cb <= 0 ->
    cb1 = set_buffer cb []).
  { intros Hcase. unfold cb1. rewrite Heq. now apply Hafter0. }
  assert (Hkept :
    1 <= overlap_tokens cb < Z.of_nat (List.length T) -> (now1 <= now2)%Q ->
    flush_if_idle cb1 idle now2
    = (Some (join " " (drop (List.length T - k) T)), set_buffer cb [])).
  { intros Hk Hle. unfold cb1. rewrite Heq, Hafter1 by exact Hk.
    set (o := join " " (drop (List.length T - k) T)).
    assert (Hw : Forall word (drop (List.length T - k) T))
      by apply Forall_drop, pending_tokens_words.
    unfold flush_if_idle. simpl.
    rewrite (still_idle _ _ _ _ Hle Hidle). simpl.
    assert (Hpt : pending_tokens (set_buffer cb [o]) = drop (List.length T - k) T).
    { unfold pending_tokens. simpl. unfold o.
      rewrite strip_join_words by exact Hw. now apply split_join. }
    rewrite flush_chunk_small.
    - simpl. unfold o. now rewrite strip_join_words by exact Hw.
    - simpl. discriminate.
    - rewrite Hpt, length_drop. simpl. unfold k. lia. }
  split; [|split].
  - intros Hcase. rewrite (Hdrained Hcase). split; [reflexivity|].
    now apply flush_if_idle_empty.
  - exact Hkept.
  - intros Hle now3.
    destruct (Z.le_gt_cases (Z.of_nat (List.length T)) (overlap_tokens cb)) as [H|H].
    + rewrite (Hdrained (or_introl H)).
      rewrite (flush_if_idle_empty (set_buffer cb []) idle now2) by reflexivity.
      simpl. now rewrite flush_if_idle_empty.
    + destruct (Z.le_gt_cases (overlap_tokens cb) 0) as [H0|H0].
      * rewrite (Hdrained (or_intror H0)).
        rewrite (flush_if_idle_empty (set_buffer cb []) idle now2) by reflexivity.
        simpl. now rewrite flush_if_idle_empty.
      * rewrite Hkept by (lia || exact Hle). simpl.
        now rewrite flush_if_idle_empty.
Qed.

(** C3, an instance: one pending token under an overlap of two. *)
Lemma flush_if_idle_twice_witness :
  let cb := mkChunkBuffer 2 800 1100 0 ["refund"] in
  buffer (snd (flush_if_idle cb 20 21)) = []
  /\ flush_if_idle (snd (flush_if_idle cb 20 21)) 20 26
     = (None, snd (flush_if_idle cb 20 21)).
Proof.
  apply (proj1 (flush_if_idle_twice (mkChunkBuffer 2 800 1100 0 ["refund"])
                  20 21 26 "refund" eq_refl)).
  left. vm_compute. discriminate.
Defined.

(** C3 as first stated fails: with two pending tokens and an overlap of one,
    the first idle flush returns the first token and keeps the second, which
    the next idle flush returns. *)
Lemma flush_if_idle_twice_counterexample :
  let cb := mkChunkBuffer 1 800 1100 0 ["a b"] in
  flush_if_idle cb 20 21 = (Some "a", set_buffer cb ["b"])
  /\ flush_if_idle (snd (flush_if_idle cb 20 21)) 20 26
     = (Some "b", set_buffer cb []).
Proof. vm_compute. split; reflexivity. Qed.

(** [chunker_call] is the flush named by [entry_flush]. *)
Lemma chunker_call_flush (cb : ChunkBuffer) (e : entry) :
  chunker_call cb e
  = match entry_flush cb e with
    | SoftFlush => flush_chunk (entry_buffer cb e)
    | HardFlush => force_flush_chunk (entry_buffer cb e)
    | NoFlush => (None, entry_buffer cb e)
    end.
Proof.
  destruct e as [text role now|now|]; simpl.
  - destruct (decide (role = "QUESTION")); [reflexivity|].
    destruct (decide (role = "ANSWER")); reflexivity.
  - unfold flush_if_idle.
    now destruct (negb _ && negb _).
  - reflexivity.
Qed.

Lemma add_select_not_hard (cb : ChunkBuffer) (tokens : Z) :
  token_target cb <= token_max cb -> add_select cb tokens <> HardFlush.
Proof.
  intros Hinv. unfold add_select.
  destruct (Z.leb_spec (token_target cb) tokens); [discriminate|].
  destruct (Z.leb_spec (token_max cb) tokens); [lia | discriminate].
Qed.

Lemma add_soft_or_none (cb : ChunkBuffer) :
  token_target cb <= token_max cb ->
  forall (text : string) (now : Q),
    add cb text now
    = (if token_target cb <=? add_tokens cb text now
       then flush_chunk (add_appended cb text now)
       else (None, add_appended cb text now)).
Proof.
  intros Hinv text now. unfold add, add_select. simpl.
  destruct (Z.leb_spec (token_target cb) (add_tokens cb text now)); [reflexivity|].
  destruct (Z.leb_spec (token_max cb) (add_tokens cb text now)); [lia | reflexivity].
Qed.

Lemma scaled_word_count_eq (text : string) :
  scaled_word_count text
  = (Z.of_nat (List.length (split (strip text))) * 3 # 4)%Q.
Proof.
  unfold scaled_word_count, Qmult, inject_Z. simpl. reflexivity.
Qed.

(** The count that [add] computes, from the tokens pending after [append]. *)
Lemma add_tokens_words (cb : ChunkBuffer) (text : string) (now : Q) :
  add_tokens cb text now
  = (3 * Z.of_nat (List.length (pending_tokens (add_appended cb text now)))) / 4.
Proof.
  unfold add_tokens, approx_token_count, py_int, pending_tokens.
  rewrite scaled_word_count_eq. cbn [Qnum Qden].
  rewrite Z.quot_div_nonneg by lia. f_equal. lia.
Qed.

(** C4 (as amended).  Under [token_target <= token_max] the second guard of
    [add] never fires: [add] runs the soft flush when the count reaches
    [token_target] and returns nothing otherwise, and among the
    orchestrator's entry points only [force_flush] runs the hard flush.  A
    count at or above [token_max] is therefore soft-flushed.  With [T] the
    tokens then pending, that flush keeps the last [overlap_tokens] tokens
    as the sole pending segment when [1 <= overlap_tokens < |T|], which is
    the case whenever [1 <= overlap_tokens] and
    [3 * overlap_tokens < 4 * token_max]; when [|T| <= overlap_tokens] it
    returns the whole trimmed text and leaves the buffer empty, as the hard
    flush does, and with [overlap_tokens <= 0] it leaves the buffer empty
    too. *)
Theorem add_hard_flush_unreachable (cb : ChunkBuffer) :
  token_target cb <= token_max cb ->
  (forall (text : string) (now : Q),
     let cb1 := add_appended cb text now in
     let tokens := add_tokens cb text now in
     let T := pending_tokens cb1 in
     let k := Z.to_nat (overlap_tokens cb) in
     add_select cb1 tokens <> HardFlush
     /\ add cb text now
        = (if token_target cb <=? tokens then flush_chunk cb1 else (None, cb1))
     /\ (forall seg, fst (add cb text now) = Some seg ->
         add cb text now = flush_chunk cb1)
     /\ (token_max cb <= tokens ->
         add cb text now = flush_chunk cb1
         /\ (1 <= overlap_tokens cb < Z.of_nat (List.length T) ->
             add cb text now
             = (Some (join " " (take (List.length T - k) T)),
                set_buffer cb1 [join " " (drop (List.length T - k) T)]))
         /\ (1 <= overlap_tokens cb ->
             3 * overlap_tokens cb < 4 * token_max cb ->
             overlap_tokens cb < Z.of_nat (List.length T))
         /\ (Z.of_nat (List.length T) <= overlap_tokens cb ->
             add cb text now = force_flush_chunk cb1
             /\ add cb text now
                = (Some (strip (join " " (buffer cb1))), set_buffer cb1 []))
         /\ (overlap_tokens cb <= 0 ->
             buffer (snd (add cb text now)) = [])))
  /\ (forall e : entry, entry_flush cb e = HardFlush -> e = ForceFlush).
Proof.
  intros Hinv.
  pose proof (add_soft_or_none cb Hinv) as Hadd.
  split.
  - intros text now cb1 tokens T k. split; [|split; [|split]].
    + now apply add_select_not_hard.
    + apply Hadd.
    + intros seg. rewrite Hadd. fold tokens cb1.
      destruct (token_target cb <=? tokens); [reflexivity | discriminate].
    + intros Hmax.
      assert (Hsoft : add cb text now = flush_chunk cb1).
      { rewrite Hadd. fold tokens.
        destruct (Z.leb_spec (token_target cb) tokens); [reflexivity | lia]. }
      assert (Hne : buffer cb1 <> []).
      { unfold cb1. simpl. destruct (buffer cb); discriminate. }
      assert (Hov : overlap_tokens cb1 = overlap_tokens cb) by reflexivity.
      split; [exact Hsoft|]. split; [|split; [|split]].
      * intros Hk. rewrite Hsoft.
        rewrite flush_chunk_large by (try exact Hne; rewrite ?Hov; fold T; lia).
        fold T. rewrite Hov.
        replace (Z.to_nat (Z.of_nat (List.length T) - overlap_tokens cb))
          with (List.length T - k)%nat by (unfold k; lia).
        destruct (decide (join " " (drop (List.length T - k) T) = EmptyString))
          as [E|_]; [|reflexivity].
        exfalso. revert E. apply (overlap_tail_nonempty cb1).
        rewrite Hov. exact Hk.
      * intros Hk Hsmall. unfold tokens in Hmax.
        rewrite add_tokens_words in Hmax. fold cb1 T in Hmax.
        pose proof (Z.mul_div_le (3 * Z.of_nat (List.length T)) 4 ltac:(lia)).
        lia.
      * intros Hle. rewrite Hsoft.
        rewrite flush_chunk_small by (try exact Hne; rewrite ?Hov; exact Hle).
        split; [|reflexivity].
        unfold force_flush_chunk. destruct (buffer cb1); [congruence | reflexivity].
      * intros Hk. rewrite Hsoft.
        pose proof (flush_chunk_after cb1 Hne) as [Hdrop _].
        rewrite Hdrop by (rewrite Hov; right; exact Hk). reflexivity.
  - intros [text role now|now|]; simpl; [| |reflexivity].
    + destruct (decide (role = "QUESTION")); [discriminate|].
      destruct (decide (role = "ANSWER")); [|discriminate].
      intros H. exfalso. revert H. now apply add_select_not_hard.
    + now destruct (negb _ && negb _).
Qed.

(** C4, an instance: nine words under a ceiling of six tokens are flushed
    softly, and the last two stay pending. *)
Lemma add_hard_flush_unreachable_witness :
  add (mkChunkBuffer 2 4 6 0 ["the customer calls support"])
      "and requests a refund today" 1
  = flush_chunk (mkChunkBuffer 2 4 6 1
                   ["the customer calls support"; "and requests a refund today"])
  /\ add (mkChunkBuffer 2 4 6 0 ["the customer calls support"])
         "and requests a refund today" 1
     = (Some "the customer calls support and requests a",
        mkChunkBuffer 2 4 6 1 ["refund today"]).
Proof.
  assert (Hinv : token_target (mkChunkBuffer 2 4 6 0 ["the customer calls support"])
                 <= token_max (mkChunkBuffer 2 4 6 0 ["the customer calls support"]))
    by (vm_compute; discriminate).
  destruct (proj1 (add_hard_flush_unreachable
                     (mkChunkBuffer 2 4 6 0 ["the customer calls support"]) Hinv)
              "and requests a refund today" 1%Q) as (_ & _ & _ & Hmax).
  destruct Hmax as (Hsoft & Hkeep & _); [vm_compute; discriminate|].
  split; [exact Hsoft|].
  apply Hkeep. vm_compute. split; discriminate || reflexivity.
Defined.

(** C4 as first stated fails where the overlap is not below the pending
    tokens: with [overlap_tokens = 100], eleven words counted as eight
    tokens exceed [token_max = 6], and [add] returns all of them and keeps
    none pending, which is what the hard flush returns and leaves. *)
Lemma add_over_max_counterexample :
  let cb := mkChunkBuffer 100 4 6 0 ["the customer calls support now"] in
  let text := "and requests a refund today please" in
  token_target cb <= token_max cb
  /\ token_max cb < add_tokens cb text 1
  /\ fst (add cb text 1)
     = Some "the customer calls support now and requests a refund today please"
  /\ buffer (snd (add cb text 1)) = []
  /\ add cb text 1 = force_flush_chunk (add_appended cb text 1).
Proof.
  vm_compute. repeat split; discriminate || reflexivity.
Qed.

Lemma add_all_cons (cb : ChunkBuffer) (text : string) (now : Q)
    (rest : list (string * Q)) :
  add_all cb ((text, now) :: rest)
  = (fst (add cb text now) :: fst (add_all (snd (add cb text now)) rest),
     snd (add_all (snd (add cb text now)) rest)).
Proof.
  simpl. destruct (add cb text now) as [r cb1]. simpl.
  now destruct (add_all cb1 rest).
Qed.

(** C5 (as amended).  On a buffer with [token_target <= token_max], a run
    of [add] calls in which no computed token count reaches [token_target]
    returns nothing at every call, and the buffer holds the trimmed texts in
    order. *)
Theorem add_below_target_emits_nothing (cb : ChunkBuffer)
    (calls : list (string * Q)) :
  token_target cb <= token_max cb ->
  Forall (fun n => n < token_target cb) (add_counts cb calls) ->
  Forall (fun r => r = None) (fst (add_all cb calls))
  /\ List.length (fst (add_all cb calls)) = List.length calls
  /\ buffer (snd (add_all cb calls))
     = buffer cb ++ map (fun c => strip (fst c)) calls.
Proof.
  revert cb. induction calls as [|[text now] rest IH]; intros cb Hinv Hlow.
  - simpl. rewrite app_nil_r. auto.
  - simpl in Hlow. apply Forall_cons_1 in Hlow as [Hnow Hrest].
    assert (Hadd : add cb text now = (None, add_appended cb text now)).
    { rewrite (add_soft_or_none cb Hinv).
      destruct (Z.leb_spec (token_target cb) (add_tokens cb text now));
        [lia | reflexivity]. }
    rewrite add_all_cons, Hadd. rewrite Hadd in Hrest. simpl in *.
    destruct (IH (add_appended cb text now) Hinv Hrest) as (H1 & H2 & H3).
    split; [|split].
    + now constructor.
    + now rewrite H2.
    + rewrite H3. simpl. now rewrite <- List.app_assoc.
Qed.

(** C5, an instance: two answers of four words and one word under a target
    of four tokens. *)
Lemma add_below_target_emits_nothing_witness :
  let cb := mkChunkBuffer 120 4 6 0 [] in
  let calls := [("the customer calls support", 1%Q); (" ok ", 2%Q)] in
  fst (add_all cb calls) = [None; None]
  /\ buffer (snd (add_all cb calls)) = ["the customer calls support"; "ok"].
Proof.
  intros cb calls.
  assert (Hinv : token_target cb <= token_max cb) by (vm_compute; discriminate).
  assert (Hlow : Forall (fun n => n < token_target cb) (add_counts cb calls))
    by (repeat constructor).
  pose proof (add_below_target_emits_nothing cb calls Hinv Hlow) as (_ & _ & H3).
  split; [reflexivity | exact H3].
Defined.

(** C5 as first stated fails where [token_max] is below [token_target],
    which the constructor accepts: with a target of ten and a ceiling of
    three, four words count as three tokens, below the target, and [add]
    returns them by the hard flush. *)
Lemma add_below_target_counterexample :
  let cb := mkChunkBuffer 120 10 3 0 [] in
  let calls := [("a b c d", 1%Q)] in
  add_counts cb calls = [3]
  /\ Forall (fun n => n < token_target cb) (add_counts cb calls)
  /\ fst (add_all cb calls) = [Some "a b c d"].
Proof.
  vm_compute. split; [reflexivity | split; [|reflexivity]].
  repeat constructor.
Qed.

(** ** The approximate token count *)

(** C9 (as amended).  The token count is the integer part of the number of
    words times 0.75, that is the floor of three quarters of the number of
    words, and it is this integer that [add] compares with [token_target]
    and [token_max].  The thresholds being integers, each comparison comes
    out as it would on the product itself. *)
Theorem approx_token_count_truncates (text : string) :
  let w := Z.of_nat (List.length (split (strip text))) in
  approx_token_count text = (3 * w) / 4
  /\ (forall t : Z,
        t <= approx_token_count text <-> (inject_Z t <= scaled_word_count text)%Q)
  /\ (forall cb : ChunkBuffer,
        add_select cb (approx_token_count text)
        = if Qle_bool (inject_Z (token_target cb)) (scaled_word_count text)
          then SoftFlush
          else if Qle_bool (inject_Z (token_max cb)) (scaled_word_count text)
               then HardFlush else NoFlush).
Proof.
  intros w.
  assert (Hval : approx_token_count text = (3 * w) / 4).
  { unfold approx_token_count, py_int. rewrite scaled_word_count_eq. simpl.
    fold w. rewrite Z.quot_div_nonneg by lia. f_equal. lia. }
  assert (Hcmp : forall t : Z,
    t <= approx_token_count text <-> (inject_Z t <= scaled_word_count text)%Q).
  { intros t. rewrite Hval, scaled_word_count_eq. fold w.
    unfold Qle, inject_Z. simpl. split; intros H.
    - assert (4 * ((3 * w) / 4) <= 3 * w) by (apply Z.mul_div_le; lia). lia.
    - apply Z.div_le_lower_bound; lia. }
  assert (Hbool : forall t : Z,
    (t <=? approx_token_count text)
    = Qle_bool (inject_Z t) (scaled_word_count text)).
  { intros t. apply eq_true_iff_eq.
    rewrite Z.leb_le, Qle_bool_iff. apply Hcmp. }
  split; [exact Hval | split; [exact Hcmp|]].
  intros cb. unfold add_select. now rewrite !Hbool.
Qed.

(** C9 as first stated fails: one word counts for zero tokens, not 0.75. *)
Lemma approx_token_count_counterexample :
  approx_token_count "refund" = 0
  /\ (scaled_word_count "refund" == 3 # 4)%Q
  /\ ~ (inject_Z (approx_token_count "refund") == scaled_word_count "refund")%Q.
Proof.
  split; [reflexivity | split; [reflexivity|]].
  vm_compute. discriminate.
Qed.

(** ** The merge step *)

Lemma backfill_lookup (merged : gmap string json) (k : string) :
  dict_update empty_process_memory (backfill_entries empty_process_memory merged) !! k
  = match empty_process_memory !! k with
    | Some v => Some (default v (merged !! k))
    | None => None
    end.
Proof.
  unfold dict_update, backfill_entries.
  rewrite lookup_union, map_lookup_imap.
  destruct (empty_process_memory !! k) as [v|]; reflexivity.
Qed.

Lemma merge_models_object (json_loads : string -> option json)
    (a : gmap string json) (b : json) (resp : completion)
    (merged : gmap string json) :
  llm_json_completion json_loads resp = Ok (JObject merged) ->
  merge_models json_loads a b resp
  = Ok (dict_update empty_process_memory
          (backfill_entries empty_process_memory merged)).
Proof. unfold merge_models. now intros ->. Qed.

(** C1 (as amended).  When the merge oracle's decoded output is an object,
    [merge_models] returns a model that holds, under each field of the
    canonical empty schema, the oracle's value if the output has the field,
    and otherwise the value of the canonical empty schema; the prior model
    does not enter the result. *)
Theorem merge_models_backfills_defaults (json_loads : string -> option json)
    (a : gmap string json) (b : json) (resp : completion)
    (merged : gmap string json) :
  llm_json_completion json_loads resp = Ok (JObject merged) ->
  exists m : gmap string json,
    merge_models json_loads a b resp = Ok m
    /\ (forall k v, empty_process_memory !! k = Some v ->
          merged !! k = None -> m !! k = Some v)
    /\ (forall k v x, empty_process_memory !! k = Some v ->
          merged !! k = Some x -> m !! k = Some x)
    /\ (forall a' : gmap string json, merge_models json_loads a' b resp = Ok m).
Proof.
  intros Hresp.
  exists (dict_update empty_process_memory
            (backfill_entries empty_process_memory merged)).
  split; [now apply merge_models_object|].
  split; [|split].
  - intros k v Hk Hm. now rewrite backfill_lookup, Hk, Hm.
  - intros k v x Hk Hm. now rewrite backfill_lookup, Hk, Hm.
  - intros a'. now apply merge_models_object.
Qed.

(** C1, an instance: the oracle answers the empty object. *)
Lemma merge_models_backfills_defaults_witness :
  exists m : gmap string json,
    merge_models loads_empty_object
      (<["title" := JString "Refunds"]> empty_process_memory) (JObject ∅)
      (CompletionContent (Some "{}")) = Ok m
    /\ m !! "title" = Some JNull.
Proof.
  destruct (merge_models_backfills_defaults loads_empty_object
              (<["title" := JString "Refunds"]> empty_process_memory) (JObject ∅)
              (CompletionContent (Some "{}")) ∅ eq_refl) as (m & Hm & Hdef & _).
  exists m. split; [exact Hm|].
  apply Hdef; reflexivity.
Defined.

(** C1 as first stated fails: a prior model with a title, merged with an
    oracle output that omits every field, comes back with the title of the
    empty schema. *)
Lemma merge_models_backfill_counterexample :
  let a := <["title" := JString "Refunds"]> empty_process_memory in
  a !! "title" = Some (JString "Refunds")
  /\ llm_json_completion loads_empty_object (CompletionContent (Some "{}"))
     = Ok (JObject ∅)
  /\ match merge_models loads_empty_object a (JObject ∅) (CompletionContent (Some "{}")) with
     | Ok m => m !! "title"
     | Raise _ => None
     end = Some JNull.
Proof. vm_compute. split; [reflexivity | split; reflexivity]. Qed.

(** C6.  When the merge oracle's decoded output is an object, with whatever
    fields missing, [merge_models] returns a model whose fields are exactly
    those of the canonical empty schema. *)
Theorem merge_models_schema_complete (json_loads : string -> option json)
    (a : gmap string json) (b : json) (resp : completion)
    (merged : gmap string json) :
  llm_json_completion json_loads resp = Ok (JObject merged) ->
  exists m : gmap string json,
    merge_models json_loads a b resp = Ok m
    /\ dom m = dom empty_process_memory.
Proof.
  intros Hresp.
  exists (dict_update empty_process_memory
            (backfill_entries empty_process_memory merged)).
  split; [now apply merge_models_object|].
  apply set_eq. intros k. rewrite !elem_of_dom, backfill_lookup.
  destruct (empty_process_memory !! k) as [v|]; simpl.
  - split; intros _; eauto.
  - reflexivity.
Qed.

(** C6, an instance: the empty fragment. *)
Lemma merge_models_schema_complete_witness :
  exists m : gmap string json,
    merge_models loads_empty_object
      (<["title" := JString "Refunds"]> empty_process_memory) (JObject ∅)
      (CompletionContent None) = Ok m
    /\ dom m = dom empty_process_memory.
Proof.
  exact (merge_models_schema_complete loads_empty_object
           (<["title" := JString "Refunds"]> empty_process_memory) (JObject ∅)
           (CompletionContent None) ∅ eq_refl).
Defined.

(** ** The role classifier *)

Lemma startswith_spec (p t : string) :
  startswith t p = true <-> exists s, t = p +:+ s.
Proof.
  revert t. induction p as [|a p IH]; intros t.
  - split; [intros _; now exists t | reflexivity].
  - destruct t as [|b t]; simpl.
    + split; [discriminate | intros [s Hs]; rewrite sapp_cons in Hs; discriminate].
    + destruct (decide (a = b)) as [->|Hab].
      * rewrite IH. split; intros [s Hs]; exists s.
        -- now rewrite sapp_cons, Hs.
        -- rewrite sapp_cons in Hs. congruence.
      * split; [discriminate|]. intros [s Hs]. rewrite sapp_cons in Hs. congruence.
Qed.

Lemma startswith_any_spec (ps : list string) (t : string) :
  startswith_any t ps = true <-> exists p s, In p ps /\ t = p +:+ s.
Proof.
  unfold startswith_any. rewrite existsb_exists. split.
  - intros (p & Hin & Hp). apply startswith_spec in Hp as [s Hs]. eauto.
  - intros (p & s & Hin & Hs). exists p. split; [exact Hin|].
    apply startswith_spec. eauto.
Qed.

Lemma endswith_spec (suf t : string) :
  endswith t suf = true <-> exists s, t = s +:+ suf.
Proof.
  induction t as [|c t IH]; simpl.
  - destruct (decide (EmptyString = suf)) as [<-|Hne].
    + split; [intros _; now exists EmptyString | reflexivity].
    + split; [discriminate|]. intros [[|c s] Hs].
      * now rewrite sapp_nil in Hs.
      * rewrite sapp_cons in Hs. discriminate.
  - destruct (decide (String c t = suf)) as [<-|Hne].
    + split; [intros _; now exists EmptyString | reflexivity].
    + rewrite IH. split.
      * intros [s Hs]. exists (String c s). now rewrite sapp_cons, Hs.
      * intros [[|c' s] Hs].
        -- now rewrite sapp_nil in Hs.
        -- rewrite sapp_cons in Hs. exists s. congruence.
Qed.

Lemma starts_nonempty (p : string) :
  In p (q_starts ++ request_starts) -> p <> EmptyString.
Proof.
  intros Hin Hp. subst p. simpl in Hin.
  repeat (destruct Hin as [Hin|Hin]; [discriminate|]). exact Hin.
Qed.

(** C8 (as amended).  With [t] the trimmed, lower-cased text, the heuristic
    classifier returns ANSWER when [t] is empty, QUESTION when [t] ends with
    a question mark, QUESTION when [t] starts with an entry of [q_starts]
    (an interrogative word followed by a space, or one of the two phrases),
    QUESTION when [t] starts with an entry of [request_starts] (a request
    verb followed by a space), and ANSWER otherwise. *)
Theorem heuristic_role_classify_spec (text : string) :
  let t := lower (strip text) in
  (t = EmptyString -> heuristic_role_classify text = ANSWER)
  /\ ((exists s, t = s +:+ "?") -> heuristic_role_classify text = QUESTION)
  /\ ((exists p s, In p q_starts /\ t = p +:+ s) ->
      heuristic_role_classify text = QUESTION)
  /\ ((exists p s, In p request_starts /\ t = p +:+ s) ->
      heuristic_role_classify text = QUESTION)
  /\ ((forall s, t <> s +:+ "?") ->
      (forall p s, In p (q_starts ++ request_starts) -> t <> p +:+ s) ->
      heuristic_role_classify text = ANSWER).
Proof.
  intros t. unfold heuristic_role_classify. fold t.
  assert (Hprefix : forall p s, In p (q_starts ++ request_starts) ->
            t = p +:+ s -> t <> EmptyString).
  { intros p s Hin -> . apply sapp_nonempty_l. now apply starts_nonempty. }
  split; [|split; [|split; [|split]]].
  - intros ->. reflexivity.
  - intros Hq. pose proof Hq as [s Hs].
    destruct (decide (t = EmptyString)) as [E|_].
    + exfalso. rewrite E in Hs. symmetry in Hs. revert Hs.
      now apply sapp_nonempty_r.
    + apply endswith_spec in Hq. now rewrite Hq.
  - intros Hq. pose proof Hq as (p & s & Hin & Hs).
    destruct (decide (t = EmptyString)) as [E|_].
    + exfalso. apply (Hprefix p s); [apply in_or_app; now left | exact Hs | exact E].
    + apply startswith_any_spec in Hq. rewrite Hq. now destruct (endswith t "?").
  - intros Hq. pose proof Hq as (p & s & Hin & Hs).
    destruct (decide (t = EmptyString)) as [E|_].
    + exfalso. apply (Hprefix p s); [apply in_or_app; now right | exact Hs | exact E].
    + apply startswith_any_spec in Hq. rewrite Hq.
      now destruct (endswith t "?"), (startswith_any t q_starts).
  - intros Hend Hstart.
    destruct (decide (t = EmptyString)); [reflexivity|].
    destruct (endswith t "?") eqn:E1.
    { apply endswith_spec in E1 as [s Hs]. now destruct (Hend s). }
    destruct (startswith_any t q_starts) eqn:E2.
    { apply startswith_any_spec in E2 as (p & s & Hin & Hs).
      destruct (Hstart p s); [apply in_or_app; now left | exact Hs]. }
    destruct (startswith_any t request_starts) eqn:E3; [|reflexivity].
    apply startswith_any_spec in E3 as (p & s & Hin & Hs).
    destruct (Hstart p s); [apply in_or_app; now right | exact Hs].
Qed.

(** C8, an instance of the interrogative and of the request case. *)
Lemma heuristic_role_classify_spec_witness :
  heuristic_role_classify "  How does a refund work " = QUESTION
  /\ heuristic_role_classify "Tell me about refunds" = QUESTION.
Proof.
  split.
  - apply (proj1 (proj2 (proj2 (heuristic_role_classify_spec
                                  "  How does a refund work ")))).
    exists "how ", "does a refund work". split; [now left | reflexivity].
  - apply (proj1 (proj2 (proj2 (proj2 (heuristic_role_classify_spec
                                         "Tell me about refunds"))))).
    exists "tell me ", "about refunds". split; [|reflexivity].
    simpl. tauto.
Defined.

(** C8 as first stated fails: a text that is a listed interrogative word, or
    a listed request verb, and nothing more starts with that word and is
    classified ANSWER. *)
Lemma heuristic_role_classify_counterexample :
  (In "how" listed_interrogatives
   /\ startswith (lower (strip "How")) "how" = true
   /\ heuristic_role_classify "How" = ANSWER)
  /\ (In "explain" listed_requests
      /\ startswith (lower (strip "Explain")) "explain" = true
      /\ heuristic_role_classify "Explain" = ANSWER).
Proof.
  split; (split; [simpl; tauto | split; reflexivity]).
Qed.

Lemma llm_json_completion_undecodable (json_loads : string -> option json)
    (c : option string) :
  let t := response_text c in
  json_loads t = None ->
  json_loads (slice t (find "{"%char t) (rfind "}"%char t + 1)) = None ->
  llm_json_completion json_loads (CompletionContent c) = Ok (JObject ∅).
Proof.
  intros t H1 H2. unfold llm_json_completion. fold t. rewrite H1, H2.
  now destruct (_ && _).
Qed.

Lemma classify_role_no_role (json_loads : string -> option json)
    (mode text : string) (resp : completion) (d : gmap string json) :
  mode <> "heuristic" ->
  llm_json_completion json_loads resp = Ok (JObject d) ->
  d !! "role" = None ->
  classify_role json_loads mode text resp = Ok ANSWER.
Proof.
  intros Hmode Hresp Hrole. unfold classify_role.
  destruct (decide (mode = "heuristic")); [contradiction|].
  rewrite Hresp. simpl. now rewrite Hrole.
Qed.

(** C7 (as amended).  In a mode other than the heuristic one,
    [classify_role] returns ANSWER when the content of the response is
    missing, when it cannot be decoded, and when the decoded object has no
    role; an error raised by the completion call is not caught, and
    [classify_role] raises it. *)
Theorem classify_role_llm_failures (json_loads : string -> option json)
    (mode text : string) :
  mode <> "heuristic" ->
  (forall e, classify_role json_loads mode text (CompletionRaises e) = Raise e)
  /\ (json_loads "{}" = Some (JObject ∅) ->
      classify_role json_loads mode text (CompletionContent None) = Ok ANSWER)
  /\ (forall c,
        let t := response_text c in
        json_loads t = None ->
        json_loads (slice t (find "{"%char t) (rfind "}"%char t + 1)) = None ->
        classify_role json_loads mode text (CompletionContent c) = Ok ANSWER)
  /\ (forall c d,
        llm_json_completion json_loads (CompletionContent c) = Ok (JObject d) ->
        d !! "role" = None ->
        classify_role json_loads mode text (CompletionContent c) = Ok ANSWER).
Proof.
  intros Hmode. split; [|split; [|split]].
  - intros e. unfold classify_role.
    destruct (decide (mode = "heuristic")); [contradiction | reflexivity].
  - intros Hloads.
    apply (classify_role_no_role _ _ _ _ ∅ Hmode); [|reflexivity].
    unfold llm_json_completion.
    change (response_text None) with "{}". now rewrite Hloads.
  - intros c t H1 H2.
    apply (classify_role_no_role _ _ _ _ ∅ Hmode); [|reflexivity].
    now apply llm_json_completion_undecodable.
  - intros c d Hresp Hrole. now apply (classify_role_no_role _ _ _ _ d).
Qed.

(** C7, an instance: a response that is not JSON. *)
Lemma classify_role_llm_failures_witness :
  classify_role loads_empty_object "llm" "How do refunds work"
    (CompletionContent (Some "I cannot tell")) = Ok ANSWER.
Proof.
  refine (proj1 (proj2 (proj2
    (classify_role_llm_failures loads_empty_object "llm" "How do refunds work" _)))
    (Some "I cannot tell") _ _).
  - discriminate.
  - reflexivity.
  - reflexivity.
Defined.

(** C7 as first stated fails: when the completion call raises, so does
    [classify_role]. *)
Lemma classify_role_llm_counterexample :
  classify_role loads_empty_object "llm" "How do refunds work"
    (CompletionRaises (ClientError "timeout"))
  = Raise (ClientError "timeout").
Proof. reflexivity. Qed.

(** ** Runs of the model on the scenarios of the specification *)

Example split_collapses_runs :
  split "  the customer   calls support " = ["the"; "customer"; "calls"; "support"].
Proof. reflexivity. Qed.

Example strip_keeps_inner_space : strip "  a  b  " = "a  b".
Proof. reflexivity. Qed.

(** Target of four tokens, overlap of two: four words stay pending; at nine
    words the first seven are flushed. *)
Example scenario_second_add_flushes :
  let cb0 := mkChunkBuffer 2 4 1100 0 [] in
  let '(r1, cb1) := add cb0 "the customer calls support" 1 in
  let '(r2, cb2) := add cb1 "and requests a refund today" 2 in
  r1 = None
  /\ r2 = Some "the customer calls support and requests a"
  /\ buffer cb2 = ["refund today"].
Proof. vm_compute. split; [|split]; reflexivity. Qed.

(** One short answer, then 21 seconds of silence. *)
Example scenario_idle_flush :
  let cb0 := mkChunkBuffer 120 800 1100 0 [] in
  let '(_, cb1) := add cb0 "We notify the customer by email." 100 in
  flush_if_idle cb1 IDLE_FLUSH_SECONDS 121
  = (Some "We notify the customer by email.", set_buffer cb1 [])
  /\ flush_if_idle cb1 IDLE_FLUSH_SECONDS 120 = (None, cb1).
Proof. vm_compute. split; reflexivity. Qed.

Example scenario_question_then_answer :
  heuristic_role_classify "What happens when a claim is denied?" = QUESTION
  /\ heuristic_role_classify "We notify the customer by email." = ANSWER.
Proof. split; reflexivity. Qed.

(** ** Serialized merges *)

Section Serialized.

Local Open Scope nat_scope.

Variable json_loads : string -> option json.

Lemma total_insert (f : routine -> nat) (l : list routine) (i : nat)
    (old new : routine) :
  l !! i = Some old ->
  total f (<[i := new]> l) + f old = total f l + f new.
Proof.
  revert i. induction l as [|r l IH]; intros [|i] Hi; simpl in *;
    try discriminate.
  - injection Hi as ->. lia.
  - specialize (IH i Hi). lia.
Qed.

Lemma total_replicate (f : routine -> nat) (n : nat) (r : routine) :
  total f (replicate n r) = n * f r.
Proof. induction n as [|n IH]; simpl; [reflexivity | rewrite IH; lia]. Qed.

Lemma total_positive (f : routine -> nat) (l : list routine) :
  0 < total f l -> exists i r, l !! i = Some r /\ 0 < f r.
Proof.
  induction l as [|r l IH]; simpl; [lia|]. intros Hpos.
  destruct (f r) eqn:E.
  - destruct (IH Hpos) as (i & r' & Hi & Hr'). now exists (S i), r'.
  - exists 0, r. split; [reflexivity | lia].
Qed.

Lemma total_all_finished (l : list routine) :
  Forall (fun r => r = Finished) l -> total finished l = List.length l.
Proof.
  induction 1 as [|r l -> _ IH]; simpl; [reflexivity | now rewrite IH].
Qed.

Lemma invariant_started (n : nat) : invariant n (started n).
Proof.
  unfold invariant, in_critical. simpl.
  rewrite !total_replicate, length_replicate. simpl. lia.
Qed.

Lemma invariant_step (n : nat) (st st' : pipeline) :
  invariant n st -> step json_loads st st' -> invariant n st'.
Proof.
  unfold invariant, in_critical. intros (Hc & Hm & Hn) Hstep.
  destruct Hstep as [st i resp v Hi _|st i resp e Hi _|st i v Hi Hl
                    |st i a v resp m Hi _|st i a v resp e Hi _]; simpl;
    rewrite length_insert.
  - pose proof (total_insert merging _ _ _ (Waiting v) Hi).
    pose proof (total_insert finished _ _ _ (Waiting v) Hi). simpl in *. lia.
  - pose proof (total_insert merging _ _ _ (Failed e) Hi).
    pose proof (total_insert finished _ _ _ (Failed e) Hi). simpl in *. lia.
  - pose proof (total_insert merging _ _ _ (Merging (memory st) v) Hi).
    pose proof (total_insert finished _ _ _ (Merging (memory st) v) Hi).
    rewrite Hl in Hc. simpl in *. lia.
  - pose proof (total_insert merging _ _ _ Finished Hi).
    pose proof (total_insert finished _ _ _ Finished Hi).
    destruct (locked st); simpl in *; lia.
  - pose proof (total_insert merging _ _ _ (Failed e) Hi).
    pose proof (total_insert finished _ _ _ (Failed e) Hi).
    destruct (locked st); simpl in *; lia.
Qed.

Lemma invariant_reachable (n : nat) (st : pipeline) :
  reachable json_loads n st -> invariant n st.
Proof.
  unfold reachable. intros Hrun.
  apply (rtc_ind_r (R := step json_loads) (fun s => invariant n s) (started n));
    [apply invariant_started | | exact Hrun].
  intros y z _ Hstep IH. eapply invariant_step; eassumption.
Qed.

Lemma step_decreases (st st' : pipeline) :
  step json_loads st st' ->
  total remaining (routines st') < total remaining (routines st).
Proof.
  intros Hstep.
  destruct Hstep as [st i resp v Hi _|st i resp e Hi _|st i v Hi Hl
                    |st i a v resp m Hi _|st i a v resp e Hi _]; simpl.
  - pose proof (total_insert remaining _ _ _ (Waiting v) Hi). simpl in *. lia.
  - pose proof (total_insert remaining _ _ _ (Failed e) Hi). simpl in *. lia.
  - pose proof (total_insert remaining _ _ _ (Merging (memory st) v) Hi).
    simpl in *. lia.
  - pose proof (total_insert remaining _ _ _ Finished Hi). simpl in *. lia.
  - pose proof (total_insert remaining _ _ _ (Failed e) Hi). simpl in *. lia.
Qed.

Lemma merging_can_step (st : pipeline) (i : nat) (a : gmap string json) (v : json) :
  routines st !! i = Some (Merging a v) -> exists st', step json_loads st st'.
Proof.
  intros Hi.
  destruct (merge_models json_loads a v (CompletionContent None)) as [m|e] eqn:E.
  - eexists. eapply step_merge; eassumption.
  - eexists. eapply step_merge_raise; eassumption.
Qed.

Lemma no_deadlock (n : nat) (st : pipeline) (i : nat) (r : routine) :
  invariant n st ->
  routines st !! i = Some r -> 0 < remaining r ->
  exists st', step json_loads st st'.
Proof.
  intros (Hc & _ & _) Hi Hr. destruct r as [|v|a v| |e]; simpl in Hr; try lia.
  - destruct (llm_json_completion json_loads (CompletionContent None))
      as [v|e] eqn:E.
    + eexists. eapply step_extract; eassumption.
    + eexists. eapply step_extract_raise; eassumption.
  - destruct (locked st) eqn:Hl.
    + unfold in_critical in Hc.
      destruct (total_positive merging (routines st)) as (j & r & Hj & Hm);
        [lia|].
      destruct r; simpl in Hm; try lia.
      eapply merging_can_step; eassumption.
    + eexists. eapply step_acquire; eassumption.
  - eapply merging_can_step; eassumption.
Qed.

Lemma total_lookup_le (f : routine -> nat) (l : list routine) (i : nat)
    (r : routine) :
  l !! i = Some r -> f r <= total f l.
Proof.
  revert i. induction l as [|x l IH]; intros [|i] Hi; simpl in *;
    try discriminate.
  - injection Hi as ->. lia.
  - specialize (IH i Hi). lia.
Qed.

Lemma fresh_step (n : nat) (st st' : pipeline) :
  invariant n st -> fresh st -> step json_loads st st' -> fresh st'.
Proof.
  intros Hinv Hfresh Hstep.
  pose proof (invariant_step n st st' Hinv Hstep) as (Hc' & _ & _).
  unfold fresh in *.
  destruct Hstep as [st i resp v Hi _|st i resp e Hi _|st i v Hi Hl
                    |st i a v resp m Hi _|st i a v resp e Hi _];
    cbn [routines memory locked] in *; intros j b w Hj.
  - destruct (decide (i = j)) as [->|Hij].
    + rewrite list_lookup_insert_eq in Hj by (eapply lookup_lt_Some; eassumption).
      discriminate.
    + rewrite list_lookup_insert_ne in Hj by exact Hij. eauto.
  - destruct (decide (i = j)) as [->|Hij].
    + rewrite list_lookup_insert_eq in Hj by (eapply lookup_lt_Some; eassumption).
      discriminate.
    + rewrite list_lookup_insert_ne in Hj by exact Hij. eauto.
  - destruct (decide (i = j)) as [->|Hij].
    + rewrite list_lookup_insert_eq in Hj by (eapply lookup_lt_Some; eassumption).
      congruence.
    + rewrite list_lookup_insert_ne in Hj by exact Hij. eauto.
  - pose proof (total_lookup_le merging _ _ _ Hj) as Hle.
    unfold in_critical in Hc'. cbn [routines] in Hc'. simpl in Hle. lia.
  - pose proof (total_lookup_le merging _ _ _ Hj) as Hle.
    unfold in_critical in Hc'. cbn [routines] in Hc'. simpl in Hle. lia.
Qed.

Lemma fresh_reachable (n : nat) (st : pipeline) :
  reachable json_loads n st -> fresh st.
Proof.
  intros Hrun.
  assert (H : invariant n st /\ fresh st); [|exact (proj2 H)].
  apply (rtc_ind_r (R := step json_loads)
           (fun s => invariant n s /\ fresh s) (started n));
    [| |exact Hrun].
  - split; [apply invariant_started|].
    intros j b w Hj. unfold started in Hj. cbn [routines] in Hj.
    apply lookup_replicate in Hj as [Hj _]. discriminate.
  - intros y z _ Hstep [Hinv Hfresh]. split.
    + eapply invariant_step; eassumption.
    + eapply fresh_step; eassumption.
Qed.

(** *** Runs with their events *)

Lemma step_logged_step (st st' : pipeline) (ev : event) :
  step_logged json_loads st ev st' -> step json_loads st st'.
Proof. destruct 1; econstructor; eassumption. Qed.

Lemma step_has_event (st st' : pipeline) :
  step json_loads st st' -> exists ev, step_logged json_loads st ev st'.
Proof. destruct 1; eexists; econstructor; eassumption. Qed.

Lemma run_reachable (n : nat) (evs : list event) (st : pipeline) :
  run json_loads n evs st -> reachable json_loads n st.
Proof.
  unfold reachable. induction 1 as [|evs st ev st' _ IH Hstep];
    [apply rtc_refl|].
  eapply rtc_r; [exact IH | eapply step_logged_step; exact Hstep].
Qed.

Lemma reachable_run (n : nat) (st : pipeline) :
  reachable json_loads n st -> exists evs, run json_loads n evs st.
Proof.
  unfold reachable. intros Hrun.
  apply (rtc_ind_r (R := step json_loads)
           (fun s => exists evs, run json_loads n evs s) (started n));
    [exists []; constructor | | exact Hrun].
  intros y z _ Hstep [evs Hevs].
  destruct (step_has_event y z Hstep) as [ev Hev].
  exists (evs ++ [ev]). econstructor; eassumption.
Qed.

Lemma lock_after_app (h : option nat) (evs evs' : list event) :
  lock_after h (evs ++ evs')
  = match lock_after h evs with
    | Some h' => lock_after h' evs'
    | None => None
    end.
Proof.
  revert h. induction evs as [|ev evs IH]; intros h; [reflexivity|].
  destruct ev; cbn [app lock_after]; try apply IH.
  - destruct h; [reflexivity | apply IH].
  - destruct (decide (h = Some i)); [apply IH | reflexivity].
  - destruct (decide (h = Some i)); [apply IH | reflexivity].
Qed.

Lemma replay_app (mem : gmap string json) (evs evs' : list event) :
  replay json_loads mem (evs ++ evs')
  = match replay json_loads mem evs with
    | Some m => replay json_loads m evs'
    | None => None
    end.
Proof.
  revert mem. induction evs as [|ev evs IH]; intros mem; [reflexivity|].
  destruct ev; cbn [app replay]; try apply IH.
  destruct (merge_models json_loads mem v resp); [apply IH | reflexivity].
Qed.

Lemma merged_by_app (evs evs' : list event) :
  merged_by (evs ++ evs') = merged_by evs ++ merged_by evs'.
Proof.
  induction evs as [|ev evs IH]; [reflexivity|].
  destruct ev; cbn [app merged_by]; rewrite IH; reflexivity.
Qed.

Lemma acquired_by_app (evs evs' : list event) :
  acquired_by (evs ++ evs') = acquired_by evs ++ acquired_by evs'.
Proof.
  induction evs as [|ev evs IH]; [reflexivity|].
  destruct ev; cbn [app acquired_by]; rewrite IH; reflexivity.
Qed.

Lemma released_by_app (evs evs' : list event) :
  released_by (evs ++ evs') = released_by evs ++ released_by evs'.
Proof.
  induction evs as [|ev evs IH]; [reflexivity|].
  destruct ev; cbn [app released_by]; rewrite IH; reflexivity.
Qed.

Lemma released_by_merged (evs : list event) :
  (forall i e, MergeRaised i e ∉ evs) -> released_by evs = merged_by evs.
Proof.
  induction evs as [|ev evs IH]; intros Hno; [reflexivity|].
  assert (Hrest : forall i e, MergeRaised i e ∉ evs).
  { intros i e Hin. apply (Hno i e). now apply list_elem_of_further. }
  destruct ev; cbn [released_by merged_by]; rewrite ?IH by exact Hrest;
    try reflexivity.
  exfalso. apply (Hno i e). apply list_elem_of_here.
Qed.

Lemma insert_lookup_cases (l : list routine) (i j : nat) (old new : routine) :
  l !! i = Some old ->
  <[i := new]> l !! j = if decide (j = i) then Some new else l !! j.
Proof.
  intros Hi. destruct (decide (j = i)) as [->|Hji].
  - apply list_lookup_insert_eq. eapply lookup_lt_Some; exact Hi.
  - apply list_lookup_insert_ne. congruence.
Qed.

(** The lock along a run: taken when free, given back by its holder, and
    held at the end by the routine that is inside the block, if any. *)
Lemma run_lock (n : nat) (evs : list event) (st : pipeline) :
  run json_loads n evs st ->
  exists h : option nat,
    lock_after None evs = Some h
    /\ (h = None <-> locked st = false)
    /\ (forall i, h = Some i <->
                  exists a v, routines st !! i = Some (Merging a v))
    /\ acquired_by evs = released_by evs ++ holder_list h.
Proof.
  induction 1 as [|evs st ev st' _ (h & Hh & Hfree & Hin & Hacq) Hstep].
  - exists None. split; [reflexivity|]. split; [tauto|].
    split; [|reflexivity].
    intros i. split; [discriminate|]. intros (a & v & Hi).
    unfold started in Hi. cbn [routines] in Hi.
    apply lookup_replicate in Hi as [Hi _]. discriminate.
  - destruct Hstep as [st i resp v Hi _|st i resp e Hi _|st i v Hi Hl
                      |st i a v resp m Hi _|st i a v resp e Hi _];
      rewrite lock_after_app, Hh, acquired_by_app, released_by_app, Hacq;
      cbn [lock_after routines locked acquired_by released_by].
    + exists h. split; [reflexivity|]. split; [exact Hfree|].
      split; [|now rewrite !app_nil_r].
      intros j. rewrite (insert_lookup_cases _ _ j _ _ Hi).
      destruct (decide (j = i)) as [->|_]; [|apply Hin].
      rewrite Hin. split; intros (a & w & Hj); congruence.
    + exists h. split; [reflexivity|]. split; [exact Hfree|].
      split; [|now rewrite !app_nil_r].
      intros j. rewrite (insert_lookup_cases _ _ j _ _ Hi).
      destruct (decide (j = i)) as [->|_]; [|apply Hin].
      rewrite Hin. split; intros (a & w & Hj); congruence.
    + apply Hfree in Hl. subst h.
      exists (Some i). split; [reflexivity|]. split; [split; discriminate|].
      split; [|reflexivity].
      intros j. rewrite (insert_lookup_cases _ _ j _ _ Hi).
      destruct (decide (j = i)) as [->|Hji].
      * split; [eauto | reflexivity].
      * split; [congruence|]. intros Hj. apply Hin in Hj. discriminate.
    + assert (Hi' : h = Some i) by (apply Hin; eauto). subst h.
      destruct (decide (Some i = Some i)) as [_|Hne]; [|congruence].
      exists None. split; [reflexivity|]. split; [tauto|].
      split; [|now rewrite !app_nil_r].
      intros j. rewrite (insert_lookup_cases _ _ j _ _ Hi).
      destruct (decide (j = i)) as [->|Hji].
      * split; [discriminate|]. intros (b & w & Hj). discriminate.
      * split; [discriminate|]. intros Hj. apply Hin in Hj. congruence.
    + assert (Hi' : h = Some i) by (apply Hin; eauto). subst h.
      destruct (decide (Some i = Some i)) as [_|Hne]; [|congruence].
      exists None. split; [reflexivity|]. split; [tauto|].
      split; [|now rewrite !app_nil_r].
      intros j. rewrite (insert_lookup_cases _ _ j _ _ Hi).
      destruct (decide (j = i)) as [->|Hji].
      * split; [discriminate|]. intros (b & w & Hj). discriminate.
      * split; [discriminate|]. intros Hj. apply Hin in Hj. congruence.
Qed.

(** A routine whose merge raised has ended with that failure. *)
Lemma run_raised (n : nat) (evs : list event) (st : pipeline) :
  run json_loads n evs st ->
  forall i e, MergeRaised i e ∈ evs ->
              exists e', routines st !! i = Some (Failed e').
Proof.
  induction 1 as [|evs st ev st' _ IH Hstep]; intros j x Hj;
    [inversion Hj|].
  apply elem_of_app in Hj. rewrite list_elem_of_singleton in Hj.
  destruct Hstep as [st i resp v Hi _|st i resp e Hi _|st i v Hi Hl
                    |st i a v resp m Hi _|st i a v resp e Hi _];
    cbn [routines]; rewrite (insert_lookup_cases _ _ j _ _ Hi);
    destruct (decide (j = i)) as [->|Hji];
    destruct Hj as [Hj|Hj]; try discriminate; eauto;
    try (destruct (IH _ _ Hj) as [e' He']; congruence);
    congruence.
Qed.

(** The memory is what the merges of the run give when carried out one
    after the other. *)
Lemma run_replay (n : nat) (evs : list event) (st : pipeline) :
  run json_loads n evs st ->
  replay json_loads empty_process_memory evs = Some (memory st).
Proof.
  induction 1 as [|evs st ev st' Hrun IH Hstep]; [reflexivity|].
  pose proof (fresh_reachable n st (run_reachable n evs st Hrun)) as Hfresh.
  rewrite replay_app, IH.
  destruct Hstep as [st i resp v Hi _|st i resp e Hi _|st i v Hi Hl
                    |st i a v resp m Hi Hm|st i a v resp e Hi _];
    cbn [replay memory]; try reflexivity.
  rewrite <- (Hfresh i a v Hi), Hm. reflexivity.
Qed.

(** Each routine merges at most once, and has returned exactly when it has
    merged. *)
Lemma run_merged (n : nat) (evs : list event) (st : pipeline) :
  run json_loads n evs st ->
  NoDup (merged_by evs)
  /\ (forall i, i ∈ merged_by evs <-> routines st !! i = Some Finished)
  /\ List.length (merged_by evs) = merges st.
Proof.
  induction 1 as [|evs st ev st' _ (Hnd & Hin & Hlen) Hstep].
  - split; [constructor|]. split; [|reflexivity].
    intros i. split; [intros Hi; inversion Hi|]. intros Hi.
    unfold started in Hi. cbn [routines] in Hi.
    apply lookup_replicate in Hi as [Hi _]. discriminate.
  - destruct Hstep as [st i resp v Hi _|st i resp e Hi _|st i v Hi Hl
                      |st i a v resp m Hi _|st i a v resp e Hi _];
      rewrite merged_by_app; cbn [merged_by routines merges];
      rewrite ?app_nil_r.
    + split; [exact Hnd|]. split; [|exact Hlen].
      intros j. rewrite (insert_lookup_cases _ _ j _ _ Hi).
      destruct (decide (j = i)) as [->|_]; [|apply Hin].
      rewrite Hin. split; congruence.
    + split; [exact Hnd|]. split; [|exact Hlen].
      intros j. rewrite (insert_lookup_cases _ _ j _ _ Hi).
      destruct (decide (j = i)) as [->|_]; [|apply Hin].
      rewrite Hin. split; congruence.
    + split; [exact Hnd|]. split; [|exact Hlen].
      intros j. rewrite (insert_lookup_cases _ _ j _ _ Hi).
      destruct (decide (j = i)) as [->|_]; [|apply Hin].
      rewrite Hin. split; congruence.
    + split; [|split].
      * apply NoDup_app. split; [exact Hnd|]. split; [|apply NoDup_singleton].
        intros j Hj Hji. apply list_elem_of_singleton in Hji. subst j.
        apply Hin in Hj. congruence.
      * intros j. rewrite (insert_lookup_cases _ _ j _ _ Hi).
        rewrite elem_of_app, list_elem_of_singleton.
        destruct (decide (j = i)) as [->|Hji]; [tauto|].
        rewrite Hin. tauto.
      * rewrite length_app, Hlen. simpl. lia.
    + split; [exact Hnd|]. split; [|exact Hlen].
      intros j. rewrite (insert_lookup_cases _ _ j _ _ Hi).
      destruct (decide (j = i)) as [->|_]; [|apply Hin].
      rewrite Hin. split; congruence.
Qed.

(** What a routine merges is what its own extraction returned. *)
Lemma run_extracted (n : nat) (evs : list event) (st : pipeline) :
  run json_loads n evs st ->
  (forall i v, routines st !! i = Some (Waiting v)
               \/ (exists a, routines st !! i = Some (Merging a v)) ->
               Extracted i v ∈ evs)
  /\ (forall i v resp, Merged i v resp ∈ evs -> Extracted i v ∈ evs).
Proof.
  induction 1 as [|evs st ev st' _ (Hst & Hev) Hstep].
  - split.
    + intros i v Hi. unfold started in Hi. cbn [routines] in Hi.
      destruct Hi as [Hi|(a & Hi)];
        apply lookup_replicate in Hi as [Hi _]; discriminate.
    + intros i v resp Hi. inversion Hi.
  - destruct Hstep as [st i resp v Hi _|st i resp e Hi _|st i v Hi Hl
                      |st i a v resp m Hi _|st i a v resp e Hi _];
      cbn [routines]; (split; [intros j w|intros j w r]);
      rewrite ?(insert_lookup_cases _ _ j _ _ Hi);
      rewrite !elem_of_app, ?list_elem_of_singleton.
    + destruct (decide (j = i)) as [->|_].
      * intros [Hj|(a & Hj)]; [right; congruence | discriminate].
      * intros Hj. left. eauto.
    + intros [Hj|Hj]; [left; eauto | discriminate].
    + destruct (decide (j = i)) as [->|_].
      * intros [Hj|(a & Hj)]; discriminate.
      * intros Hj. left. eauto.
    + intros [Hj|Hj]; [left; eauto | discriminate].
    + destruct (decide (j = i)) as [->|_].
      * intros [Hj|(a & Hj)]; [discriminate|]. left. apply Hst. left. congruence.
      * intros Hj. left. eauto.
    + intros [Hj|Hj]; [left; eauto | discriminate].
    + destruct (decide (j = i)) as [->|_].
      * intros [Hj|(b & Hj)]; discriminate.
      * intros Hj. left. eauto.
    + intros [Hj|Hj]; [left; eauto|].
      left. apply Hst. right. exists a. congruence.
    + destruct (decide (j = i)) as [->|_].
      * intros [Hj|(b & Hj)]; discriminate.
      * intros Hj. left. eauto.
    + intros [Hj|Hj]; [left; eauto | discriminate].
Qed.

(** C10.  In every state that [n] routines of [process_chunk] can reach by
    interleaving at their suspension points, at most one routine is inside
    the block guarded by the lock, and one is there exactly when the lock is
    held.  Every such state is reached by a run, and along every run that
    reaches it: the lock is taken only when free and given back only by the
    routine that took it, so that no two executions of the block overlap,
    and the routines that took it are those that gave it back, in the same
    order, followed by its holder; the memory is what the merges of the run
    give when [merge_models] is applied for each in turn to the model
    returned for the one before, starting from the empty model; each routine
    has merged at most once, has returned exactly when it has merged, and
    has merged what its own extraction returned.  The merges count as many
    as the routines that have returned: when all [n] have returned the lock
    has been taken [n] times, once by each routine, and the merge has run
    [n] times, in the order in which the lock was taken.  A routine that has
    not ended can always be continued (no routine waits for the lock for
    ever), and every step brings the routines closer to their end. *)
Theorem merges_serialized (n : nat) (st : pipeline) :
  reachable json_loads n st ->
  in_critical st <= 1
  /\ (in_critical st = 1 <-> locked st = true)
  /\ (exists evs, run json_loads n evs st)
  /\ (forall evs, run json_loads n evs st ->
      (exists h : option nat,
         lock_after None evs = Some h
         /\ (h = None <-> locked st = false)
         /\ (forall i, h = Some i <->
                       exists a v, routines st !! i = Some (Merging a v))
         /\ acquired_by evs = released_by evs ++ holder_list h)
      /\ replay json_loads empty_process_memory evs = Some (memory st)
      /\ NoDup (merged_by evs)
      /\ (forall i, i ∈ merged_by evs <-> routines st !! i = Some Finished)
      /\ (forall i v resp, Merged i v resp ∈ evs -> Extracted i v ∈ evs)
      /\ List.length (merged_by evs) = merges st
      /\ (Forall (fun r => r = Finished) (routines st) ->
          List.length (merged_by evs) = n
          /\ acquired_by evs = merged_by evs))
  /\ merges st = total finished (routines st)
  /\ (Forall (fun r => r = Finished) (routines st) -> merges st = n)
  /\ (forall i r, routines st !! i = Some r -> 0 < remaining r ->
      exists st', step json_loads st st')
  /\ (forall st', step json_loads st st' ->
      reachable json_loads n st'
      /\ total remaining (routines st') < total remaining (routines st)).
Proof.
  intros Hrun. pose proof (invariant_reachable n st Hrun) as Hinv.
  pose proof Hinv as (Hc & Hm & Hn).
  assert (Hall : Forall (fun r => r = Finished) (routines st) -> merges st = n).
  { intros Hall. rewrite Hm, total_all_finished by exact Hall. exact Hn. }
  split; [|split; [|split; [|split; [|split; [|split; [|split]]]]]].
  - rewrite Hc. destruct (locked st); lia.
  - rewrite Hc. destruct (locked st); split; (reflexivity || discriminate || lia).
  - now apply reachable_run.
  - intros evs Hevs.
    destruct (run_merged n evs st Hevs) as (Hnd & Hin & Hlen).
    split; [now apply (run_lock n)|].
    split; [now apply (run_replay n)|].
    split; [exact Hnd|]. split; [exact Hin|].
    split; [apply (run_extracted n evs st Hevs)|].
    split; [exact Hlen|].
    intros Hfin. split; [rewrite Hlen; now apply Hall|].
    destruct (run_lock n evs st Hevs) as (h & _ & _ & Hh & Hacq).
    rewrite Hacq, released_by_merged.
    + destruct h as [i|]; [|apply app_nil_r].
      destruct (proj1 (Hh i) eq_refl) as (a & v & Hi).
      apply (proj1 (Forall_lookup _ _) Hfin) in Hi. discriminate.
    + intros i e Hi.
      destruct (run_raised n evs st Hevs i e Hi) as [e' He'].
      apply (proj1 (Forall_lookup _ _) Hfin) in He'. discriminate.
  - exact Hm.
  - exact Hall.
  - intros i r Hi Hr. eapply no_deadlock; eassumption.
  - intros st' Hstep. split; [|now apply step_decreases].
    unfold reachable in *. eapply rtc_r; eassumption.
Qed.

End Serialized.

(** C10, an instance: two routines, both extracted before either merges;
    the first to take the lock merges first, and the memory is the second
    merge of the first. *)
Lemma merges_serialized_witness :
  exists (evs : list event) (st : pipeline),
    run loads_empty_object 2 evs st
    /\ routines st = [Finished; Finished]
    /\ merged_by evs = [0; 1]%nat
    /\ acquired_by evs = merged_by evs
    /\ lock_after None evs = Some None
    /\ replay loads_empty_object empty_process_memory evs = Some (memory st)
    /\ merges st = 2%nat
    /\ (in_critical st <= 1)%nat.
Proof.
  assert (Hrun : exists evs st,
             run loads_empty_object 2 evs st
             /\ routines st = [Finished; Finished]
             /\ merged_by evs = [0; 1]%nat
             /\ lock_after None evs = Some None).
  { eexists. eexists. split; [|split; [|split]].
    - eapply run_step; [eapply run_step; [eapply run_step; [eapply run_step;
        [eapply run_step; [eapply run_step; [apply run_start|]|]|]|]|]|].
      + eapply (logged_extract _ _ 0%nat (CompletionContent None)); reflexivity.
      + eapply (logged_extract _ _ 1%nat (CompletionContent None)); reflexivity.
      + eapply (logged_acquire _ _ 0%nat); reflexivity.
      + eapply (logged_merge _ _ 0%nat _ _ (CompletionContent None)); reflexivity.
      + eapply (logged_acquire _ _ 1%nat); reflexivity.
      + eapply (logged_merge _ _ 1%nat _ _ (CompletionContent None)); reflexivity.
    - reflexivity.
    - reflexivity.
    - reflexivity. }
  destruct Hrun as (evs & st & Hrun & Hfin & Hby & Hlock). exists evs, st.
  destruct (merges_serialized loads_empty_object 2 st
              (run_reachable loads_empty_object 2 evs st Hrun))
    as (Hle & _ & _ & Hruns & _ & Hall & _).
  assert (Hdone : Forall (fun r => r = Finished) (routines st))
    by (rewrite Hfin; repeat constructor).
  destruct (Hruns evs Hrun) as (_ & Hreplay & _ & _ & _ & _ & Hcount).
  split; [exact Hrun|]. split; [exact Hfin|]. split; [exact Hby|].
  split; [exact (proj2 (Hcount Hdone))|].
  split; [exact Hlock|]. split; [exact Hreplay|].
  split; [exact (Hall Hdone) | exact Hle].
Defined.

(** * Further properties of the code *)

(** ** Splitting, trimming and joining *)

Module SplitFacts.

Lemma split_go_app_space (a cur b : string) (sp : ascii) :
  is_space sp = true ->
  split_go cur (a +:+ String sp b) = split_go cur a ++ split_go EmptyString b.
Proof.
  intros Hsp. revert cur. induction a as [|c a IH]; intros cur.
  - rewrite sapp_nil. simpl. rewrite Hsp.
    destruct (decide (cur = EmptyString)); reflexivity.
  - rewrite sapp_cons. simpl. destruct (is_space c).
    + destruct (decide (cur = EmptyString)); rewrite IH; reflexivity.
    + apply IH.
Qed.

Lemma split_lstrip (s : string) : split (lstrip s) = split s.
Proof.
  unfold split. induction s as [|c s IH]; [reflexivity|].
  simpl. destruct (is_space c) eqn:Hc; [exact IH|].
  simpl. now rewrite Hc.
Qed.

Lemma split_go_rstrip (s cur : string) :
  split_go cur (rstrip s) = split_go cur s.
Proof.
  revert cur. induction s as [|c s IH]; intros cur; [reflexivity|].
  simpl. destruct (rstrip s) as [|c' r] eqn:Hr.
  - destruct (is_space c) eqn:Hc.
    + simpl. destruct (decide (cur = EmptyString)); now rewrite <- IH.
    + simpl. rewrite Hc. now rewrite <- IH.
  - simpl. destruct (is_space c) eqn:Hc.
    + destruct (decide (cur = EmptyString)); now rewrite <- IH.
    + now rewrite <- IH.
Qed.

(** Trimming does not change the words. *)
Lemma split_strip (s : string) : split (strip s) = split s.
Proof.
  unfold strip. unfold split at 1. rewrite split_go_rstrip.
  apply split_lstrip.
Qed.

(** The words of a join are the words of its parts. *)
Lemma split_join_concat (l : list string) :
  split (join " " l) = concat (map split l).
Proof.
  induction l as [|x [|y l] IH].
  - reflexivity.
  - simpl. now rewrite app_nil_r.
  - rewrite join_cons2. unfold split at 1.
    change (" " +:+ join " " (y :: l)) with (String " " (join " " (y :: l))).
    rewrite split_go_app_space by reflexivity.
    fold (split x). fold (split (join " " (y :: l))). now rewrite IH.
Qed.

Lemma strip_idempotent (s : string) : strip (strip s) = strip s.
Proof.
  unfold strip.
  assert (Hl : forall t, lstrip (lstrip t) = lstrip t).
  { induction t as [|c t IH]; [reflexivity|]. simpl.
    destruct (is_space c) eqn:Hc; [exact IH|]. simpl. now rewrite Hc. }
  assert (Hr : forall t, rstrip (rstrip t) = rstrip t).
  { induction t as [|c t IH]; [reflexivity|]. simpl.
    destruct (rstrip t) as [|c' r] eqn:Hrt.
    - destruct (is_space c) eqn:Hc; [reflexivity|]. simpl. now rewrite Hc.
    - simpl. simpl in IH. destruct (rstrip r) as [|c'' r'] eqn:Hrr.
      + destruct (is_space c'); [discriminate|]. now rewrite IH.
      + now rewrite IH. }
  assert (Hlr : forall t, lstrip t = t -> lstrip (rstrip t) = rstrip t).
  { intros [|c t] Ht; [reflexivity|]. simpl in Ht.
    destruct (is_space c) eqn:Hc.
    - exfalso. assert (Hlen : forall u, (String.length (lstrip u) <= String.length u)%nat).
      { induction u as [|d u IHu]; simpl; [lia|]. destruct (is_space d); simpl; lia. }
      specialize (Hlen t). rewrite Ht in Hlen. simpl in Hlen. lia.
    - simpl. destruct (rstrip t); rewrite ?Hc; simpl; rewrite ?Hc; reflexivity. }
  rewrite Hlr by apply Hl. apply Hr.
Qed.

End SplitFacts.

Import SplitFacts.

(** ** The chunker neither loses nor repeats a word *)

Lemma pending_tokens_concat (cb : ChunkBuffer) :
  pending_tokens cb = concat (map split (buffer cb)).
Proof.
  unfold pending_tokens. rewrite split_strip. apply split_join_concat.
Qed.

Lemma pending_tokens_single (cb : ChunkBuffer) (ws : list string) :
  Forall word ws ->
  pending_tokens (set_buffer cb (if decide (join " " ws = EmptyString) then []
                                 else [join " " ws])) = ws.
Proof.
  intros Hws. destruct (decide (join " " ws = EmptyString)) as [E|_].
  - destruct ws as [|w ws]; [reflexivity|].
    exfalso. revert E. now apply join_words_nonempty.
  - rewrite pending_tokens_concat. simpl. rewrite app_nil_r.
    now apply split_join.
Qed.

(** The soft flush splits the pending tokens in two. *)
Lemma flush_chunk_tokens (cb : ChunkBuffer) :
  tokens_of (fst (flush_chunk cb)) ++ pending_tokens (snd (flush_chunk cb))
  = pending_tokens cb.
Proof.
  destruct (decide (buffer cb = [])) as [Hb|Hb].
  - rewrite flush_chunk_empty by exact Hb. reflexivity.
  - destruct (Z.le_gt_cases (Z.of_nat (List.length (pending_tokens cb)))
                (overlap_tokens cb)) as [Hle|Hgt].
    + rewrite flush_chunk_small by assumption. simpl.
      rewrite app_nil_r. reflexivity.
    + rewrite flush_chunk_large by (try exact Hb; lia). simpl.
      assert (Hw : Forall word (pending_tokens cb)) by apply pending_tokens_words.
      rewrite split_join by (apply Forall_take, Hw).
      rewrite pending_tokens_single by (apply Forall_drop, Hw).
      apply take_drop.
Qed.

(** X1.  Whatever the configuration, the soft flush, called directly or by
    [flush_if_idle], splits the pending tokens in two: the tokens of the
    segment it returns, followed by the tokens it keeps pending, are the
    tokens that were pending, each once and in order. *)
Theorem flush_chunk_conserves_tokens (cb : ChunkBuffer) (idle : Z) (now : Q) :
  tokens_of (fst (flush_chunk cb)) ++ pending_tokens (snd (flush_chunk cb))
  = pending_tokens cb
  /\ tokens_of (fst (flush_if_idle cb idle now))
       ++ pending_tokens (snd (flush_if_idle cb idle now))
     = pending_tokens cb.
Proof.
  split; [apply flush_chunk_tokens|].
  unfold flush_if_idle.
  destruct (negb _ && negb _); [apply flush_chunk_tokens | reflexivity].
Qed.

(** The hard flush returns every pending token and leaves none. *)
Lemma force_flush_chunk_drains (cb : ChunkBuffer) :
  tokens_of (fst (force_flush_chunk cb)) = pending_tokens cb
  /\ buffer (snd (force_flush_chunk cb)) = []
  /\ (fst (force_flush_chunk cb) = None <-> buffer cb = []).
Proof.
  unfold force_flush_chunk. destruct (buffer cb) as [|x l] eqn:Hb.
  - rewrite pending_tokens_empty by exact Hb. simpl. rewrite Hb. tauto.
  - simpl. split; [|split; [reflexivity|]].
    + unfold pending_tokens. now rewrite Hb.
    + split; discriminate.
Qed.

Lemma add_appended_tokens (cb : ChunkBuffer) (text : string) (now : Q) :
  pending_tokens (add_appended cb text now) = pending_tokens cb ++ split text.
Proof.
  rewrite !pending_tokens_concat. simpl.
  rewrite map_app, concat_app. simpl.
  now rewrite app_nil_r, split_strip.
Qed.

Lemma add_conserves_tokens (cb : ChunkBuffer) (text : string) (now : Q) :
  tokens_of (fst (add cb text now)) ++ pending_tokens (snd (add cb text now))
  = pending_tokens cb ++ split text.
Proof.
  rewrite <- add_appended_tokens with (now := now). unfold add.
  destruct (add_select _ _).
  - apply flush_chunk_tokens.
  - destruct (force_flush_chunk_drains (add_appended cb text now)) as (H1 & H2 & _).
    rewrite H1. rewrite (pending_tokens_empty _ H2). apply app_nil_r.
  - reflexivity.
Qed.

(** X2.  Over any run of [add] calls, on any configuration, the tokens of
    the segments returned, in order, followed by the tokens still pending,
    are the tokens pending at the start followed by those of the texts
    added: no word is lost, repeated or moved.  A final hard flush returns
    what is still pending. *)
Theorem add_all_conserves_tokens (cb : ChunkBuffer) (calls : list (string * Q)) :
  let segs := fst (add_all cb calls) in
  let cb' := snd (add_all cb calls) in
  concat (map tokens_of segs) ++ pending_tokens cb'
  = pending_tokens cb ++ concat (map (fun c => split (fst c)) calls)
  /\ concat (map tokens_of (segs ++ [fst (force_flush_chunk cb')]))
     = pending_tokens cb ++ concat (map (fun c => split (fst c)) calls).
Proof.
  assert (Hrun : forall calls cb,
    concat (map tokens_of (fst (add_all cb calls)))
      ++ pending_tokens (snd (add_all cb calls))
    = pending_tokens cb ++ concat (map (fun c => split (fst c)) calls)).
  { clear. induction calls as [|[text now] rest IH]; intros cb.
    - simpl. now rewrite app_nil_r.
    - rewrite add_all_cons. simpl.
      rewrite <- List.app_assoc, IH, List.app_assoc, add_conserves_tokens.
      now rewrite <- List.app_assoc. }
  intros segs cb'. split; [apply Hrun|].
  rewrite map_app, concat_app. simpl. rewrite app_nil_r.
  destruct (force_flush_chunk_drains cb') as (-> & _ & _). apply Hrun.
Qed.

Lemma approx_token_count_words (s : string) :
  approx_token_count s = (3 * Z.of_nat (List.length (split s))) / 4.
Proof.
  unfold approx_token_count, py_int. rewrite scaled_word_count_eq. simpl.
  rewrite split_strip. rewrite Z.quot_div_nonneg by lia. f_equal. lia.
Qed.

(** X3.  The count that [add] compares is three quarters, rounded down, of
    the number of words pending before the call plus the words of the text
    added.  [add] returns nothing exactly when three times that number is
    below both four times [token_target] and four times [token_max]; under
    [token_target <= token_max] it returns the segment of the soft flush
    from [4 * token_target <= 3 * words] on. *)
Theorem add_flushes_at_word_count (cb : ChunkBuffer) (text : string) (now : Q) :
  let words :=
    Z.of_nat (List.length (pending_tokens cb) + List.length (split text)) in
  add_tokens cb text now = (3 * words) / 4
  /\ (fst (add cb text now) = None <->
      3 * words < 4 * token_target cb /\ 3 * words < 4 * token_max cb)
  /\ (token_target cb <= token_max cb ->
      4 * token_target cb <= 3 * words ->
      add cb text now = flush_chunk (add_appended cb text now)
      /\ fst (add cb text now) <> None).
Proof.
  intros words.
  assert (Htok : add_tokens cb text now = (3 * words) / 4).
  { unfold add_tokens. rewrite approx_token_count_words.
    pose proof (add_appended_tokens cb text now) as H.
    unfold pending_tokens in H. rewrite split_strip in H. rewrite H.
    rewrite length_app. reflexivity. }
  assert (Hne : buffer (add_appended cb text now) <> []).
  { simpl. destruct (buffer cb); discriminate. }
  assert (Hsoft : fst (flush_chunk (add_appended cb text now)) <> None).
  { destruct (Z.le_gt_cases
                (Z.of_nat (List.length (pending_tokens (add_appended cb text now))))
                (overlap_tokens (add_appended cb text now))).
    - rewrite flush_chunk_small by assumption. discriminate.
    - rewrite flush_chunk_large by (try exact Hne; lia). discriminate. }
  assert (Hhard : fst (force_flush_chunk (add_appended cb text now)) <> None).
  { intros H. now apply force_flush_chunk_drains in H. }
  assert (Hlo : 4 * (3 * words / 4) <= 3 * words) by (apply Z.mul_div_le; lia).
  assert (Hhi : 3 * words < 4 * (3 * words / 4 + 1)).
  { pose proof (Z.mul_succ_div_gt (3 * words) 4). lia. }
  split; [exact Htok|]. split.
  - unfold add, add_select. rewrite Htok.
    destruct (Z.leb_spec (token_target (add_appended cb text now)) (3 * words / 4))
      as [H1|H1]; simpl in H1.
    + split; [intros E; now destruct Hsoft | lia].
    + destruct (Z.leb_spec (token_max (add_appended cb text now)) (3 * words / 4))
        as [H2|H2]; simpl in H2.
      * split; [intros E; now destruct Hhard | lia].
      * split; [lia | reflexivity].
  - intros Hinv Hreach. rewrite (add_soft_or_none cb Hinv), Htok.
    destruct (Z.leb_spec (token_target cb) (3 * words / 4)) as [H1|H1]; [|lia].
    split; [reflexivity | exact Hsoft].
Qed.

(** X3, an instance: target four, five words pending, one more added. *)
Lemma add_flushes_at_word_count_witness :
  add (mkChunkBuffer 2 4 6 0 ["the customer calls support today"]) "please" 1
  = flush_chunk (mkChunkBuffer 2 4 6 1 ["the customer calls support today"; "please"]).
Proof.
  refine (proj1 (proj2 (proj2 (add_flushes_at_word_count
           (mkChunkBuffer 2 4 6 0 ["the customer calls support today"]) "please" 1))
           _ _)).
  - vm_compute. discriminate.
  - vm_compute. discriminate.
Defined.

(** ** The heuristic classifier ignores case and surrounding white space *)

Lemma lower_char_idempotent (c : ascii) : lower_char (lower_char c) = lower_char c.
Proof. destruct c as [[] [] [] [] [] [] [] []]; reflexivity. Qed.

Lemma is_space_lower_char (c : ascii) : is_space (lower_char c) = is_space c.
Proof. destruct c as [[] [] [] [] [] [] [] []]; reflexivity. Qed.

Lemma lower_idempotent (s : string) : lower (lower s) = lower s.
Proof.
  unfold lower. induction s as [|c s IH]; [reflexivity|].
  simpl. now rewrite lower_char_idempotent, IH.
Qed.

Lemma lower_lstrip (s : string) : lower (lstrip s) = lstrip (lower s).
Proof.
  unfold lower. induction s as [|c s IH]; [reflexivity|].
  simpl. rewrite is_space_lower_char. now destruct (is_space c).
Qed.

Lemma lower_rstrip (s : string) : lower (rstrip s) = rstrip (lower s).
Proof.
  unfold lower. induction s as [|c s IH]; [reflexivity|].
  simpl. rewrite <- IH, is_space_lower_char.
  destruct (rstrip s); [now destruct (is_space c) | reflexivity].
Qed.

Lemma lower_strip (s : string) : lower (strip s) = strip (lower s).
Proof. unfold strip. now rewrite lower_rstrip, lower_lstrip. Qed.

Lemma lstrip_all_space (pre s : string) :
  all_space pre = true -> lstrip (pre +:+ s) = lstrip s.
Proof.
  induction pre as [|c pre IH]; intros H; [reflexivity|].
  simpl in H. apply andb_prop in H as [Hc Hpre].
  rewrite sapp_cons. simpl. rewrite Hc. now apply IH.
Qed.

Lemma rstrip_all_space (post : string) :
  all_space post = true -> rstrip post = EmptyString.
Proof.
  induction post as [|c post IH]; intros H; [reflexivity|].
  simpl in H. apply andb_prop in H as [Hc Hpost].
  simpl. now rewrite IH, Hc.
Qed.

Lemma rstrip_app_all_space (s post : string) :
  all_space post = true -> rstrip (s +:+ post) = rstrip s.
Proof.
  intros H. induction s as [|c s IH].
  - rewrite sapp_nil. now apply rstrip_all_space.
  - rewrite sapp_cons. simpl. now rewrite IH.
Qed.

Lemma lstrip_app_nonblank (s post : string) :
  lstrip s <> EmptyString -> lstrip (s +:+ post) = lstrip s +:+ post.
Proof.
  induction s as [|c s IH]; intros H; [now destruct H|].
  rewrite sapp_cons. simpl in *. destruct (is_space c); [now apply IH|].
  now rewrite sapp_cons.
Qed.

Lemma lstrip_blank (s : string) : lstrip s = EmptyString -> all_space s = true.
Proof.
  induction s as [|c s IH]; [reflexivity|]. simpl.
  destruct (is_space c); [exact IH | discriminate].
Qed.

Lemma all_space_app (a b : string) :
  all_space (a +:+ b) = all_space a && all_space b.
Proof.
  induction a as [|c a IH]; [reflexivity|].
  rewrite sapp_cons. simpl. now rewrite IH, andb_assoc.
Qed.

Lemma strip_all_space (s : string) : all_space s = true -> strip s = EmptyString.
Proof.
  intros H. unfold strip.
  rewrite <- (sapp_empty_r s), lstrip_all_space by exact H. reflexivity.
Qed.

Lemma strip_surrounded (pre s post : string) :
  all_space pre = true -> all_space post = true ->
  strip (pre +:+ s +:+ post) = strip s.
Proof.
  intros Hpre Hpost. unfold strip. rewrite lstrip_all_space by exact Hpre.
  destruct (decide (lstrip s = EmptyString)) as [E|E].
  - pose proof (lstrip_blank s E) as Hs.
    rewrite <- (sapp_empty_r (s +:+ post)), lstrip_all_space
      by (rewrite all_space_app, Hs, Hpost; reflexivity).
    rewrite E. reflexivity.
  - rewrite lstrip_app_nonblank by exact E.
    now apply rstrip_app_all_space.
Qed.

(** X4.  The heuristic classification of a text does not change when the
    text is lower-cased, when it is trimmed, or when white space is put
    around it; two texts that are equal up to the case of their letters are
    classified alike. *)
Theorem heuristic_role_classify_insensitive (text : string) :
  heuristic_role_classify (lower text) = heuristic_role_classify text
  /\ heuristic_role_classify (strip text) = heuristic_role_classify text
  /\ (forall pre post : string,
        all_space pre = true -> all_space post = true ->
        heuristic_role_classify (pre +:+ text +:+ post)
        = heuristic_role_classify text)
  /\ (forall other : string,
        lower other = lower text ->
        heuristic_role_classify other = heuristic_role_classify text).
Proof.
  unfold heuristic_role_classify. split; [|split; [|split]].
  - now rewrite <- lower_strip, lower_idempotent.
  - now rewrite strip_idempotent.
  - intros pre post Hpre Hpost. now rewrite strip_surrounded.
  - intros other H. now rewrite !lower_strip, H.
Qed.

(** X4, an instance: capitals and white space around a question. *)
Lemma heuristic_role_classify_insensitive_witness :
  heuristic_role_classify "  HOW DOES IT WORK  "
  = heuristic_role_classify "how does it work".
Proof.
  transitivity (heuristic_role_classify "HOW DOES IT WORK").
  - apply (proj1 (proj2 (proj2 (heuristic_role_classify_insensitive
                                  "HOW DOES IT WORK"))) "  " "  ");
      reflexivity.
  - apply (proj2 (proj2 (proj2 (heuristic_role_classify_insensitive
                                "how does it work"))) "HOW DOES IT WORK").
    reflexivity.
Defined.

Example paragraph_sep_length : String.length PARAGRAPH_SEP = 4%nat.
Proof. reflexivity. Qed.

Example split_on_overlap : split_on "xx" "axxxb" = ["a"; "xb"].
Proof. reflexivity. Qed.

Example split_on_adjacent : split_on "xx" "xxxx" = [""; ""; ""].
Proof. reflexivity. Qed.

Example slug_example : slug "Refund Process (v2)" = "refund_process__v2_".
Proof. reflexivity. Qed.

(** ** Slugs *)

Lemma slug_char_fixed (c : ascii) : slug_char (slug_char c) = slug_char c.
Proof. destruct c as [[] [] [] [] [] [] [] []]; reflexivity. Qed.

Lemma slug_char_image (c : ascii) :
  slug_char c = "_"%char
  \/ (is_alnum (slug_char c) = true /\ lower_char (slug_char c) = slug_char c).
Proof.
  destruct c as [[] [] [] [] [] [] [] []];
    ((left; reflexivity) || (right; split; reflexivity)).
Qed.

Lemma map_chars_length (f : ascii -> ascii) (s : string) :
  String.length (map_chars f s) = String.length s.
Proof. induction s as [|c s IH]; simpl; [reflexivity | now rewrite IH]. Qed.

Lemma map_chars_prefix (f : ascii -> ascii) (n : nat) (s : string) :
  map_chars f (substring 0 n s) = substring 0 n (map_chars f s).
Proof.
  revert n. induction s as [|c s IH]; intros [|n]; simpl; try reflexivity.
  now rewrite IH.
Qed.

Lemma prefix_length (n : nat) (s : string) :
  String.length (substring 0 n s) = Nat.min n (String.length s).
Proof.
  revert n. induction s as [|c s IH]; intros [|n]; simpl; try reflexivity.
  now rewrite IH.
Qed.

Lemma prefix_prefix (n : nat) (s : string) :
  substring 0 n (substring 0 n s) = substring 0 n s.
Proof.
  revert n. induction s as [|c s IH]; intros [|n]; simpl; try reflexivity.
  now rewrite IH.
Qed.

Lemma map_chars_fixed_get (f : ascii -> ascii) (s : string) :
  map_chars f s = s ->
  forall (i : nat) (c : ascii), String.get i s = Some c -> f c = c.
Proof.
  induction s as [|a s IH]; intros Hfix i c Hget; [discriminate|].
  simpl in Hfix. injection Hfix as Ha Hs.
  destruct i as [|i]; simpl in Hget.
  - injection Hget as <-. exact Ha.
  - now apply (IH Hs i).
Qed.

(** X5.  A slug has the length of the text, but at most 40; each of its
    characters is an underscore or an alphanumeric character that is its
    own lower case; and the slug of a slug is that slug. *)
Theorem slug_shape (s : string) :
  String.length (slug s) = Nat.min 40 (String.length s)
  /\ (forall (i : nat) (c : ascii),
        String.get i (slug s) = Some c ->
        c = "_"%char \/ (is_alnum c = true /\ lower_char c = c))
  /\ slug (slug s) = slug s.
Proof.
  assert (Hidem : map_chars slug_char (slug s) = slug s).
  { unfold slug. rewrite map_chars_prefix. f_equal.
    induction s as [|c s IH]; [reflexivity|].
    simpl. now rewrite slug_char_fixed, IH. }
  split; [|split].
  - unfold slug. now rewrite prefix_length, map_chars_length.
  - intros i c Hget.
    pose proof (map_chars_fixed_get _ _ Hidem i c Hget) as Hc.
    pose proof (slug_char_image c) as Himg. now rewrite Hc in Himg.
  - unfold slug at 1. rewrite Hidem. unfold slug. apply prefix_prefix.
Qed.

(** X5, an instance: a blank of a title becomes an underscore. *)
Lemma slug_shape_witness :
  String.get 14 (slug "Refund Process (v2)") = Some "_"%char
  /\ ("_"%char = "_"%char
      \/ (is_alnum "_"%char = true /\ lower_char "_"%char = "_"%char)).
Proof.
  split; [reflexivity|].
  exact (proj1 (proj2 (slug_shape "Refund Process (v2)")) 14%nat "_"%char eq_refl).
Defined.

(** ** Paragraphs of a transcript *)

Lemma startswith_head (s sep : string) (c a : ascii) :
  startswith (String c s) (String a sep) = true -> c = a.
Proof. simpl. destruct (decide (a = c)); [auto | discriminate]. Qed.

Lemma split_on_go_absent (a : ascii) (sep : string) (s cur : string) :
  has_char a s = false ->
  split_on_go (String a sep) 0 cur s = [cur +:+ s].
Proof.
  revert cur. induction s as [|c s IH]; intros cur Habs.
  - now rewrite sapp_empty_r.
  - simpl in Habs. apply orb_false_elim in Habs as [Hc Hs].
    apply bool_decide_eq_false in Hc.
    change (split_on_go (String a sep) 0 cur (String c s))
      with (if startswith (String c s) (String a sep)
            then cur :: split_on_go (String a sep)
                          (String.length (String a sep) - 1) EmptyString s
            else split_on_go (String a sep) 0 (cur +:+ String c EmptyString) s).
    destruct (startswith (String c s) (String a sep)) eqn:E.
    + apply startswith_head in E. congruence.
    + rewrite IH by exact Hs. now rewrite sapp_assoc.
Qed.

(** X6.  Every paragraph that [process_markdown_transcript] handles is
    non-empty and trimmed.  The separator starts with a backslash: a content
    without a backslash, whatever blank lines it has, is one paragraph, the
    trimmed content, or none when it is blank. *)
Theorem paragraphs_trimmed (content : string) :
  Forall (fun p => p <> EmptyString /\ strip p = p) (paragraphs content)
  /\ (has_char "\"%char content = false ->
      paragraphs content
      = if decide (strip content = EmptyString) then [] else [strip content]).
Proof.
  split.
  - unfold paragraphs. apply Forall_forall. intros p Hp.
    apply list_elem_of_In, in_map_iff in Hp as (q & <- & Hq).
    apply filter_In in Hq as [_ Hq].
    apply negb_true_iff, bool_decide_eq_false in Hq.
    split; [exact Hq | apply strip_idempotent].
  - intros Habs. unfold paragraphs, split_on, PARAGRAPH_SEP.
    rewrite split_on_go_absent by exact Habs. rewrite sapp_nil. simpl.
    destruct (decide (strip content = EmptyString)) as [E|E].
    + now rewrite bool_decide_eq_true_2.
    + now rewrite bool_decide_eq_false_2.
Qed.

(** X6, an instance: a question and an answer with a blank line between. *)
Lemma paragraphs_trimmed_witness :
  paragraphs ("How do refunds work?" +:+ newline +:+ newline
              +:+ "We notify the customer." +:+ newline)
  = ["How do refunds work?" +:+ newline +:+ newline +:+ "We notify the customer."].
Proof.
  rewrite (proj2 (paragraphs_trimmed _)) by reflexivity.
  reflexivity.
Defined.

(** ** What [llm_json_completion] decodes *)

Lemma find_lower_bound (c : ascii) (s : string) : -1 <= find c s.
Proof.
  induction s as [|a s IH]; simpl; [lia|].
  destruct (decide (a = c)); [lia|].
  destruct (Z.eqb_spec (find c s) (-1)); lia.
Qed.

Lemma rfind_lower_bound (c : ascii) (s : string) : -1 <= rfind c s.
Proof.
  induction s as [|a s IH]; simpl; [lia|].
  destruct (Z.eqb_spec (rfind c s) (-1)); [|lia].
  destruct (decide (a = c)); lia.
Qed.

(** [find] gives the first occurrence. *)
Lemma find_first (c : ascii) (s : string) :
  find c s <> -1 ->
  String.get (Z.to_nat (find c s)) s = Some c
  /\ forall p : nat, (p < Z.to_nat (find c s))%nat -> String.get p s <> Some c.
Proof.
  induction s as [|a s IH]; simpl; [congruence|].
  destruct (decide (a = c)) as [->|Hac].
  - intros _. split; [reflexivity | intros p Hp; simpl in Hp; lia].
  - pose proof (find_lower_bound c s) as Hlb.
    destruct (Z.eqb_spec (find c s) (-1)) as [E|E]; [congruence|].
    intros _. destruct (IH E) as [Hget Hbefore].
    replace (Z.to_nat (find c s + 1)) with (S (Z.to_nat (find c s))) by lia.
    split; [exact Hget|].
    intros [|p] Hp; simpl; [congruence|]. apply Hbefore. lia.
Qed.

(** [rfind] gives the last occurrence. *)
Lemma rfind_last (c : ascii) (s : string) :
  rfind c s <> -1 ->
  String.get (Z.to_nat (rfind c s)) s = Some c
  /\ forall p : nat, (Z.to_nat (rfind c s) < p)%nat -> String.get p s <> Some c.
Proof.
  induction s as [|a s IH]; simpl; [congruence|].
  pose proof (rfind_lower_bound c s) as Hlb.
  destruct (Z.eqb_spec (rfind c s) (-1)) as [E|E].
  - destruct (decide (a = c)) as [->|Hac]; [|congruence].
    intros _. split; [reflexivity|].
    intros [|p] Hp; [simpl in Hp; lia|]. simpl.
    clear Hp. revert p.
    assert (Habsent : forall t, rfind c t = -1 -> forall p, String.get p t <> Some c).
    { clear. induction t as [|b t IHt]; intros Ht p; [now destruct p|].
      simpl in Ht. pose proof (rfind_lower_bound c t).
      destruct (Z.eqb_spec (rfind c t) (-1)) as [Et|Et]; [|lia].
      destruct (decide (b = c)); [lia|].
      destruct p as [|p]; simpl; [congruence | now apply IHt]. }
    now apply Habsent.
  - intros _. destruct (IH E) as [Hget Hafter].
    replace (Z.to_nat (rfind c s + 1)) with (S (Z.to_nat (rfind c s))) by lia.
    split; [exact Hget|].
    intros [|p] Hp; [lia|]. simpl. apply Hafter. lia.
Qed.

(** X7.  Once the completion client has returned, [llm_json_completion]
    does not raise.  It returns what [json.loads] makes of the cleaned text;
    failing that, when the text has an opening brace before a closing one,
    what [json.loads] makes of the part of the text from its first opening
    brace to its last closing brace, both included; and the empty object in
    every other case. *)
Theorem llm_json_completion_decodes (json_loads : string -> option json)
    (c : option string) :
  let t := response_text c in
  let i := find "{"%char t in
  let j := rfind "}"%char t in
  let part := slice t i (j + 1) in
  (exists v, llm_json_completion json_loads (CompletionContent c) = Ok v)
  /\ (forall v, json_loads t = Some v ->
      llm_json_completion json_loads (CompletionContent c) = Ok v)
  /\ (json_loads t = None -> i <> -1 -> j <> -1 -> i < j ->
      llm_json_completion json_loads (CompletionContent c)
      = Ok (default (JObject ∅) (json_loads part))
      /\ (forall p : nat, (p <= Z.to_nat (j - i))%nat ->
          String.get p part = String.get (Z.to_nat i + p) t)
      /\ String.get 0 part = Some "{"%char
      /\ String.get (Z.to_nat (j - i)) part = Some "}"%char
      /\ String.get (S (Z.to_nat (j - i))) part = None
      /\ (forall p : nat, (p < Z.to_nat i)%nat -> String.get p t <> Some "{"%char)
      /\ (forall p : nat, (Z.to_nat j < p)%nat -> String.get p t <> Some "}"%char))
  /\ (json_loads t = None -> (i = -1 \/ j = -1 \/ j <= i) ->
      llm_json_completion json_loads (CompletionContent c) = Ok (JObject ∅)).
Proof.
  intros t i j part.
  assert (Hfound : json_loads t = None -> i <> -1 -> j <> -1 -> i < j ->
            llm_json_completion json_loads (CompletionContent c)
            = Ok (default (JObject ∅) (json_loads part))).
  { intros Ht Hi Hj Hij. unfold llm_json_completion. fold t. rewrite Ht.
    fold i j part.
    destruct (Z.eqb_spec i (-1)); [contradiction|].
    destruct (Z.eqb_spec j (-1)); [contradiction|].
    destruct (Z.ltb_spec i j); [|lia]. simpl.
    now destruct (json_loads part). }
  assert (Hnone : json_loads t = None -> (i = -1 \/ j = -1 \/ j <= i) ->
            llm_json_completion json_loads (CompletionContent c) = Ok (JObject ∅)).
  { intros Ht Hcase. unfold llm_json_completion. fold t. rewrite Ht.
    fold i j part.
    destruct (Z.eqb_spec i (-1)); [reflexivity|].
    destruct (Z.eqb_spec j (-1)); [reflexivity|].
    destruct (Z.ltb_spec i j); [lia | reflexivity]. }
  assert (Hparsed : forall v, json_loads t = Some v ->
            llm_json_completion json_loads (CompletionContent c) = Ok v).
  { intros v Ht. unfold llm_json_completion. fold t. now rewrite Ht. }
  split; [|split; [exact Hparsed | split; [|exact Hnone]]].
  - destruct (json_loads t) as [v|] eqn:Ht; [eauto|].
    destruct (Z.eq_dec i (-1)); [eauto|].
    destruct (Z.eq_dec j (-1)); [eauto|].
    destruct (Z_lt_le_dec i j); eauto 6.
  - intros Ht Hi Hj Hij. split; [now apply Hfound|].
    pose proof (find_lower_bound "{"%char t) as Hil. fold i in Hil.
    destruct (find_first "{"%char t Hi) as [Hgi Hbefore].
    destruct (rfind_last "}"%char t Hj) as [Hgj Hafter].
    fold i in Hgi, Hbefore. fold j in Hgj, Hafter.
    assert (Hpart : forall p : nat, (p <= Z.to_nat (j - i))%nat ->
              String.get p part = String.get (Z.to_nat i + p) t).
    { intros p Hp. unfold part, slice.
      rewrite substring_correct1 by lia. f_equal. lia. }
    split; [exact Hpart|]. split; [|split; [|split; [|split]]].
    + rewrite Hpart by lia. now rewrite Nat.add_0_r.
    + rewrite Hpart by lia.
      replace (Z.to_nat i + Z.to_nat (j - i))%nat with (Z.to_nat j) by lia.
      exact Hgj.
    + unfold part, slice. apply substring_correct2. lia.
    + exact Hbefore.
    + exact Hafter.
Qed.

(** X7, an instance: prose around an empty object. *)
Lemma llm_json_completion_decodes_witness :
  llm_json_completion loads_empty_object
    (CompletionContent (Some "Here it is: {} as asked"))
  = Ok (JObject ∅).
Proof.
  refine (proj1 (proj1 (proj2 (proj2 (llm_json_completion_decodes
            loads_empty_object (Some "Here it is: {} as asked")))) _ _ _ _)).
  - reflexivity.
  - vm_compute. discriminate.
  - vm_compute. discriminate.
  - vm_compute. reflexivity.
Defined.

(** ** What [merge_models] stores and when it raises *)

Lemma Ok_inj {A : Type} (x y : A) : Ok x = Ok y -> x = y.
Proof. intros H. now injection H. Qed.

(** X8.  [merge_models] raises what the completion call raises, and raises
    [AttributeError] when the decoded output is not an object.  When the
    output is an object with exactly the fields of the empty schema, it is
    stored as it is; and storing a stored model again would not change it. *)
Theorem merge_models_outcomes (json_loads : string -> option json)
    (a : gmap string json) (b : json) (resp : completion) :
  (forall e, llm_json_completion json_loads resp = Raise e ->
     merge_models json_loads a b resp = Raise e)
  /\ (forall v, llm_json_completion json_loads resp = Ok v ->
      (forall m, v <> JObject m) ->
      merge_models json_loads a b resp = Raise AttributeError)
  /\ (forall merged, llm_json_completion json_loads resp = Ok (JObject merged) ->
      dom merged = dom empty_process_memory ->
      merge_models json_loads a b resp = Ok merged)
  /\ (forall m, merge_models json_loads a b resp = Ok m ->
      dict_update empty_process_memory (backfill_entries empty_process_memory m)
      = m).
Proof.
  split; [|split; [|split]].
  - intros e He. unfold merge_models. now rewrite He.
  - intros v Hv Hnot. unfold merge_models. rewrite Hv. unfold bind.
    destruct v; try reflexivity. now destruct (Hnot m).
  - intros merged Hresp Hdom. rewrite (merge_models_object _ _ _ _ _ Hresp).
    f_equal. apply map_eq. intros k. rewrite backfill_lookup.
    destruct (empty_process_memory !! k) as [v|] eqn:Hk.
    + assert (Hin : k ∈ dom merged) by (rewrite Hdom; apply elem_of_dom; eauto).
      apply elem_of_dom in Hin as [x Hx]. now rewrite Hx.
    + symmetry. apply not_elem_of_dom. rewrite Hdom. now apply not_elem_of_dom.
  - intros m Hm. unfold merge_models in Hm.
    destruct (llm_json_completion json_loads resp) as [v|e]; [|discriminate].
    unfold bind in Hm. destruct v as [| | | | |m0]; [discriminate Hm..|].
    cbv zeta in Hm. apply Ok_inj in Hm. subst m.
    apply map_eq. intros k. rewrite !backfill_lookup.
    now destruct (empty_process_memory !! k).
Qed.

(** X8, an instance: the completion call times out. *)
Lemma merge_models_outcomes_witness :
  merge_models loads_empty_object empty_process_memory (JObject ∅)
    (CompletionRaises (ClientError "timeout"))
  = Raise (ClientError "timeout").
Proof.
  apply (proj1 (merge_models_outcomes loads_empty_object empty_process_memory
                  (JObject ∅) (CompletionRaises (ClientError "timeout")))).
  reflexivity.
Defined.

(** ** The orchestrator, call by call *)

Section OrchestratorFacts.

Variable json_loads : string -> option json.

Lemma backfill_dom (merged : gmap string json) :
  dom (dict_update empty_process_memory
         (backfill_entries empty_process_memory merged))
  = dom empty_process_memory.
Proof.
  apply set_eq. intros k. rewrite !elem_of_dom, backfill_lookup.
  destruct (empty_process_memory !! k) as [v|]; [|reflexivity].
  split; intros _; eauto.
Qed.

Lemma merge_models_ok_inv (a : gmap string json) (b : json) (resp : completion)
    (m : gmap string json) :
  merge_models json_loads a b resp = Ok m ->
  exists merged,
    llm_json_completion json_loads resp = Ok (JObject merged)
    /\ m = dict_update empty_process_memory
             (backfill_entries empty_process_memory merged).
Proof.
  unfold merge_models. intros Hm.
  destruct (llm_json_completion json_loads resp) as [w|e]; [|discriminate Hm].
  unfold bind in Hm. destruct w as [| | | | |m0]; [discriminate Hm..|].
  cbv zeta in Hm. apply Ok_inj in Hm. eauto.
Qed.

Lemma process_chunk_facts (o : ProcessOrchestrator) (segment : string)
    (resp_e resp_m : completion) :
  let r := process_chunk json_loads o segment resp_e resp_m in
  sent r = [(recent_q_text (recent_questions o), segment)]
  /\ answer_chunker (after r) = answer_chunker o
  /\ recent_questions (after r) = recent_questions o
  /\ (raised r <> None -> after r = o)
  /\ (raised r = None ->
      dom (self_memory (after r)) = dom empty_process_memory).
Proof.
  unfold process_chunk.
  destruct (llm_json_completion json_loads resp_e) as [v|e].
  - destruct (merge_models json_loads (self_memory o) v resp_m) as [m|e] eqn:Hm.
    + cbn [sent after raised answer_chunker recent_questions self_memory].
      split; [reflexivity|]. split; [reflexivity|]. split; [reflexivity|].
      split; [intros H; now destruct H|]. intros _.
      apply merge_models_ok_inv in Hm as (merged & _ & ->).
      apply backfill_dom.
    + cbn [sent after raised answer_chunker recent_questions self_memory].
      split; [reflexivity|]. split; [reflexivity|]. split; [reflexivity|].
      split; [reflexivity | discriminate].
  - cbn [sent after raised answer_chunker recent_questions self_memory].
    split; [reflexivity|]. split; [reflexivity|]. split; [reflexivity|].
    split; [reflexivity | discriminate].
Qed.

Lemma process_if_ready_facts (o : ProcessOrchestrator)
    (r : option string * ChunkBuffer) (resp_e resp_m : completion) :
  let out := process_if_ready json_loads o r resp_e resp_m in
  answer_chunker (after out) = snd r
  /\ recent_questions (after out) = recent_questions o
  /\ sent_words (sent out) = tokens_of (fst r)
  /\ (raised out <> None -> self_memory (after out) = self_memory o)
  /\ (sent out = [] -> raised out = None /\ self_memory (after out) = self_memory o)
  /\ (self_memory (after out) = self_memory o
      \/ dom (self_memory (after out)) = dom empty_process_memory)
  /\ (List.length (sent out) <= 1)%nat
  /\ Forall (fun req => snd req <> EmptyString) (sent out).
Proof.
  unfold process_if_ready. destruct r as [chunk cb]. simpl fst. simpl snd.
  destruct chunk as [seg|]; simpl chunk_ready;
    [destruct (decide (seg = EmptyString)) as [->|Hseg]|].
  - cbn. repeat split; auto.
  - set (o' := mkOrchestrator (self_memory o) cb (recent_questions o)).
    pose proof (process_chunk_facts o' seg resp_e resp_m)
      as (Hsent & Hcb & Hrq & Hraise & Hok).
    cbv zeta in Hsent, Hcb, Hrq, Hraise, Hok.
    rewrite Hsent, Hcb, Hrq.
    split; [reflexivity|]. split; [reflexivity|].
    split; [unfold sent_words; simpl; apply app_nil_r|].
    split; [intros H; now rewrite (Hraise H)|].
    split; [discriminate|].
    split.
    + destruct (raised (process_chunk json_loads o' seg resp_e resp_m)) eqn:E.
      * left. rewrite Hraise by discriminate. reflexivity.
      * right. now apply Hok.
    + split; [simpl; lia|]. repeat constructor. exact Hseg.
  - cbn. repeat split; auto.
Qed.

Lemma chunker_call_config (cb : ChunkBuffer) (e : entry) :
  same_config cb (snd (chunker_call cb e)).
Proof.
  assert (Hflush : forall c, same_config c (snd (flush_chunk c))).
  { intros c. unfold flush_chunk, same_config. destruct (buffer c); [auto|].
    destruct (_ <=? _); simpl; auto. }
  assert (Hforce : forall c, same_config c (snd (force_flush_chunk c))).
  { intros c. unfold force_flush_chunk, same_config. destruct (buffer c); simpl; auto. }
  destruct e as [text role now|now|]; simpl.
  - destruct (decide (role = "QUESTION")); [unfold same_config; auto|].
    destruct (decide (role = "ANSWER")); [|unfold same_config; auto].
    unfold add. destruct (add_select _ _).
    + apply (Hflush (add_appended cb text now)).
    + apply (Hforce (add_appended cb text now)).
    + unfold same_config. auto.
  - unfold flush_if_idle. destruct (_ && _); [apply Hflush|unfold same_config; auto].
  - apply Hforce.
Qed.

Lemma orchestrate_chunker (o : ProcessOrchestrator) (e : entry)
    (resp_e resp_m : completion) :
  answer_chunker (after (orchestrate json_loads o e resp_e resp_m))
  = snd (chunker_call (answer_chunker o) e).
Proof.
  destruct e as [text role now|now|]; simpl.
  - unfold process_utterance.
    destruct (decide (role = "QUESTION")); [reflexivity|].
    destruct (decide (role = "ANSWER")); [|reflexivity].
    apply process_if_ready_facts.
  - apply process_if_ready_facts.
  - apply process_if_ready_facts.
Qed.

(** X9.  A call of [process_utterance], [idle_check] or [force_flush] makes
    at most one extraction request, for a non-empty segment, and raises only
    on the way of one.  When it raises, the memory is as before the call,
    while the chunker has moved on as in a call that succeeds: the segment
    is not pending any more.  Without a request the memory is as before. *)
Theorem orchestrate_failure_keeps_memory (o : ProcessOrchestrator) (e : entry)
    (resp_e resp_m : completion) :
  let r := orchestrate json_loads o e resp_e resp_m in
  (raised r <> None -> self_memory (after r) = self_memory o)
  /\ answer_chunker (after r) = snd (chunker_call (answer_chunker o) e)
  /\ (sent r = [] -> raised r = None /\ self_memory (after r) = self_memory o)
  /\ (List.length (sent r) <= 1)%nat
  /\ Forall (fun req => snd req <> EmptyString) (sent r).
Proof.
  intros r.
  assert (Hready : forall c,
    let out := process_if_ready json_loads o c resp_e resp_m in
    (raised out <> None -> self_memory (after out) = self_memory o)
    /\ (sent out = [] -> raised out = None /\ self_memory (after out) = self_memory o)
    /\ (List.length (sent out) <= 1)%nat
    /\ Forall (fun req => snd req <> EmptyString) (sent out)).
  { intros c out.
    pose proof (process_if_ready_facts o c resp_e resp_m)
      as (_ & _ & _ & H1 & H2 & _ & H3 & H4).
    auto. }
  assert (Hnone :
    (@None exn <> None -> self_memory o = self_memory o)
    /\ (@nil (string * string) = [] -> @None exn = None /\ self_memory o = self_memory o)
    /\ (List.length (@nil (string * string)) <= 1)%nat
    /\ Forall (fun req : string * string => snd req <> EmptyString) []).
  { split; [reflexivity|]. split; [auto|]. split; [simpl; lia | constructor]. }
  assert (Hall :
    (raised r <> None -> self_memory (after r) = self_memory o)
    /\ (sent r = [] -> raised r = None /\ self_memory (after r) = self_memory o)
    /\ (List.length (sent r) <= 1)%nat
    /\ Forall (fun req => snd req <> EmptyString) (sent r)).
  { unfold r. destruct e as [text role now|now|]; simpl;
      [|apply Hready..].
    unfold process_utterance.
    destruct (decide (role = "QUESTION")); [exact Hnone|].
    destruct (decide (role = "ANSWER")); [apply Hready | exact Hnone]. }
  destruct Hall as (H1 & H2 & H3 & H4).
  split; [exact H1|]. split; [apply orchestrate_chunker|]. auto.
Qed.

End OrchestratorFacts.

(** X9, an instance: the extraction call fails on the last words of a
    transcript. *)
Lemma orchestrate_failure_keeps_memory_witness :
  let o := mkOrchestrator empty_process_memory
             (mkChunkBuffer 120 800 1100 0 ["We notify the customer."]) [] in
  let r := orchestrate loads_empty_object o ForceFlush
             (CompletionRaises (ClientError "timeout")) (CompletionContent None) in
  self_memory (after r) = empty_process_memory
  /\ buffer (answer_chunker (after r)) = [].
Proof.
  intros o r. split.
  - apply (proj1 (orchestrate_failure_keeps_memory loads_empty_object o ForceFlush
                    (CompletionRaises (ClientError "timeout"))
                    (CompletionContent None))).
    discriminate.
  - reflexivity.
Defined.

(** ** The orchestrator over a run of calls *)

Lemma lastn_length {A : Type} (n : nat) (l : list A) :
  (List.length (lastn n l) <= n)%nat.
Proof. unfold lastn. rewrite length_drop. lia. Qed.

Lemma lastn_short {A : Type} (n : nat) (l : list A) :
  (List.length l <= n)%nat -> lastn n l = l.
Proof.
  intros H. unfold lastn. now replace (List.length l - n)%nat with 0%nat by lia.
Qed.

Lemma lastn_app_lastn {A : Type} (n : nat) (l l' : list A) :
  lastn n (lastn n l ++ l') = lastn n (l ++ l').
Proof.
  destruct (Nat.le_gt_cases (List.length l) n) as [H|H].
  - now rewrite (lastn_short n l H).
  - unfold lastn. rewrite !length_app, length_drop.
    replace (List.length l - (List.length l - n) + List.length l' - n)%nat
      with (List.length l')%nat by lia.
    replace (List.length l + List.length l' - n)%nat
      with ((List.length l - n) + List.length l')%nat by lia.
    rewrite <- drop_drop. f_equal.
    rewrite drop_app_le by lia. reflexivity.
Qed.

Lemma lastn_lastn {A : Type} (n m : nat) (l : list A) :
  (n <= m)%nat -> lastn n (lastn m l) = lastn n l.
Proof.
  intros H. unfold lastn. rewrite drop_drop, length_drop. f_equal. lia.
Qed.

Lemma deque_append_lastn (d : list string) (x : string) :
  (List.length d <= 6)%nat -> deque_append 6 d x = lastn 6 (d ++ [x]).
Proof.
  intros H. unfold deque_append, lastn. rewrite length_app.
  change (List.length [x]) with 1%nat.
  destruct (Nat.leb_spec 6 (List.length d)).
  - replace (List.length d + 1 - 6)%nat with 1%nat by lia.
    rewrite drop_app_le by lia. reflexivity.
  - now replace (List.length d + 1 - 6)%nat with 0%nat by lia.
Qed.

Lemma sent_words_app (a b : list (string * string)) :
  sent_words (a ++ b) = sent_words a ++ sent_words b.
Proof. unfold sent_words. now rewrite map_app, concat_app. Qed.

Section OrchestratorRuns.

Variable json_loads : string -> option json.

Lemma orchestrate_memory (o : ProcessOrchestrator) (e : entry)
    (resp_e resp_m : completion) :
  let r := orchestrate json_loads o e resp_e resp_m in
  self_memory (after r) = self_memory o
  \/ dom (self_memory (after r)) = dom empty_process_memory.
Proof.
  destruct e as [text role now|now|];
    unfold orchestrate, idle_check, force_flush;
    try apply process_if_ready_facts.
  unfold process_utterance.
  destruct (decide (role = "QUESTION")); [now left|].
  destruct (decide (role = "ANSWER")); [|now left].
  apply process_if_ready_facts.
Qed.

Lemma orchestrate_questions (o : ProcessOrchestrator) (e : entry)
    (resp_e resp_m : completion) :
  (List.length (recent_questions o) <= 6)%nat ->
  recent_questions (after (orchestrate json_loads o e resp_e resp_m))
  = lastn 6 (recent_questions o ++ entry_question e).
Proof.
  intros Hlen.
  assert (Hsame : recent_questions o = lastn 6 (recent_questions o ++ [])).
  { rewrite app_nil_r. symmetry. now apply lastn_short. }
  destruct e as [text role now|now|]; simpl.
  - unfold process_utterance.
    destruct (decide (role = "QUESTION")).
    + simpl. now apply deque_append_lastn.
    + rewrite <- Hsame.
      destruct (decide (role = "ANSWER")); [|reflexivity].
      apply process_if_ready_facts.
  - rewrite <- Hsame. apply process_if_ready_facts.
  - rewrite <- Hsame. apply process_if_ready_facts.
Qed.

Lemma chunker_call_tokens (cb : ChunkBuffer) (e : entry) :
  tokens_of (fst (chunker_call cb e)) ++ pending_tokens (snd (chunker_call cb e))
  = pending_tokens cb ++ entry_words e.
Proof.
  destruct e as [text role now|now|]; simpl.
  - destruct (decide (role = "QUESTION")); [simpl; now rewrite app_nil_r|].
    destruct (decide (role = "ANSWER")); [|simpl; now rewrite app_nil_r].
    apply add_conserves_tokens.
  - rewrite app_nil_r. unfold flush_if_idle.
    destruct (_ && _); [apply flush_chunk_tokens | reflexivity].
  - rewrite app_nil_r.
    destruct (force_flush_chunk_drains cb) as (H1 & H2 & _).
    rewrite H1, (pending_tokens_empty _ H2). apply app_nil_r.
Qed.

Lemma orchestrate_sent_words (o : ProcessOrchestrator) (e : entry)
    (resp_e resp_m : completion) :
  sent_words (sent (orchestrate json_loads o e resp_e resp_m))
  = tokens_of (fst (chunker_call (answer_chunker o) e)).
Proof.
  destruct e as [text role now|now|]; simpl;
    try apply process_if_ready_facts.
  unfold process_utterance.
  destruct (decide (role = "QUESTION")); [reflexivity|].
  destruct (decide (role = "ANSWER")); [|reflexivity].
  apply process_if_ready_facts.
Qed.

Lemma orchestrate_all_cons (o : ProcessOrchestrator) (e : entry)
    (resp_e resp_m : completion) (rest : list (entry * completion * completion)) :
  let r := orchestrate json_loads o e resp_e resp_m in
  let r' := orchestrate_all json_loads (after r) rest in
  orchestrate_all json_loads o ((e, resp_e, resp_m) :: rest)
  = mkOutcome (after r') (sent r ++ sent r')
      (match raised r with Some x => Some x | None => raised r' end).
Proof. reflexivity. Qed.

(** X10.  Over any run of calls of the three methods, with whatever the
    service answers and whether calls raise or not: a memory that has the
    fields of the empty schema keeps exactly these fields, and the
    configuration of the chunker does not change. *)
Theorem orchestrate_all_keeps_schema (o : ProcessOrchestrator)
    (calls : list (entry * completion * completion)) :
  dom (self_memory o) = dom empty_process_memory ->
  let r := orchestrate_all json_loads o calls in
  dom (self_memory (after r)) = dom empty_process_memory
  /\ same_config (answer_chunker o) (answer_chunker (after r)).
Proof.
  revert o. induction calls as [|[[e resp_e] resp_m] rest IH]; intros o Hdom.
  - cbn [orchestrate_all after]. unfold same_config. auto.
  - rewrite orchestrate_all_cons. cbv zeta.
    cbn [after].
    set (r := orchestrate json_loads o e resp_e resp_m).
    assert (Hdom' : dom (self_memory (after r)) = dom empty_process_memory).
    { destruct (orchestrate_memory o e resp_e resp_m) as [H|H]; fold r in H.
      - now rewrite H.
      - exact H. }
    destruct (IH (after r) Hdom') as [H1 H2]. split; [exact H1|].
    pose proof (chunker_call_config (answer_chunker o) e) as Hc.
    rewrite <- (orchestrate_chunker json_loads o e resp_e resp_m) in Hc. fold r in Hc.
    unfold same_config in *. intuition congruence.
Qed.

(** X11.  After any run of calls that starts with at most six recent
    questions, the recent questions are the last six of those at the start
    followed by the trimmed texts of the utterances of role QUESTION, in
    order; and the context line of the next extraction request joins the
    last three of them, or is the fixed text when there is none. *)
Theorem orchestrate_all_recent_questions (o : ProcessOrchestrator)
    (calls : list (entry * completion * completion)) :
  (List.length (recent_questions o) <= 6)%nat ->
  let r := orchestrate_all json_loads o calls in
  let asked :=
    recent_questions o ++ concat (map (fun c => entry_question (fst (fst c))) calls) in
  recent_questions (after r) = lastn 6 asked
  /\ recent_q_text (recent_questions (after r))
     = (if decide (asked = []) then "No recent questions"
        else join "; " (lastn 3 asked)).
Proof.
  intros Hlen r asked.
  assert (Hwin : recent_questions (after r) = lastn 6 asked).
  { unfold r, asked. clear r asked. revert o Hlen.
    induction calls as [|[[e resp_e] resp_m] rest IH]; intros o Hlen.
    - simpl. rewrite app_nil_r. symmetry. now apply lastn_short.
    - rewrite orchestrate_all_cons. cbv zeta. cbn [after].
      rewrite IH
        by (rewrite orchestrate_questions by exact Hlen; apply lastn_length).
      rewrite orchestrate_questions by exact Hlen.
      rewrite lastn_app_lastn. simpl. now rewrite <- List.app_assoc. }
  split; [exact Hwin|]. rewrite Hwin.
  destruct (decide (asked = [])) as [->|Hne]; [reflexivity|].
  unfold recent_q_text.
  destruct (lastn 6 asked) as [|q qs] eqn:E.
  - exfalso. apply Hne. apply (f_equal List.length) in E.
    unfold lastn in E. rewrite length_drop in E. simpl in E.
    destruct asked; [reflexivity | simpl in E; lia].
  - rewrite <- E. change (drop (List.length (lastn 6 asked) - 3) (lastn 6 asked))
      with (lastn 3 (lastn 6 asked)).
    now rewrite lastn_lastn by lia.
Qed.

(** X12.  Over any run of calls, whether calls raise or not, the words of
    the segments sent to extraction, in order, followed by the words still
    pending in the chunker, are the words pending at the start followed by
    the words of the utterances of role ANSWER: each word of an answer is
    sent once, in its place, or is still pending. *)
Theorem orchestrate_all_conserves_words (o : ProcessOrchestrator)
    (calls : list (entry * completion * completion)) :
  let r := orchestrate_all json_loads o calls in
  sent_words (sent r) ++ pending_tokens (answer_chunker (after r))
  = pending_tokens (answer_chunker o)
    ++ concat (map (fun c => entry_words (fst (fst c))) calls).
Proof.
  revert o. induction calls as [|[[e resp_e] resp_m] rest IH]; intros o.
  - simpl. now rewrite app_nil_r.
  - rewrite orchestrate_all_cons. cbv zeta. cbn [after sent].
    cbv zeta in IH.
    rewrite sent_words_app, <- List.app_assoc, IH.
    rewrite orchestrate_chunker, orchestrate_sent_words.
    rewrite List.app_assoc, chunker_call_tokens. simpl.
    now rewrite <- List.app_assoc.
Qed.

End OrchestratorRuns.

(** X10, an instance: an answer, then the final flush. *)
Lemma orchestrate_all_keeps_schema_witness :
  dom (self_memory (after (orchestrate_all loads_empty_object (new_orchestrator 0)
         [(ProcessUtterance "We notify the customer." "ANSWER" 1,
           CompletionContent None, CompletionContent None);
          (ForceFlush, CompletionContent None, CompletionContent None)])))
  = dom empty_process_memory.
Proof.
  exact (proj1 (orchestrate_all_keeps_schema loads_empty_object (new_orchestrator 0)
           [(ProcessUtterance "We notify the customer." "ANSWER" 1,
             CompletionContent None, CompletionContent None);
            (ForceFlush, CompletionContent None, CompletionContent None)]
           eq_refl)).
Defined.

(** X11, an instance: seven questions, of which the first is forgotten. *)
Lemma orchestrate_all_recent_questions_witness :
  let ask q := (ProcessUtterance q "QUESTION" 0,
                CompletionContent None, CompletionContent None) in
  let r := orchestrate_all loads_empty_object (new_orchestrator 0)
             (map ask ["q1?"; " q2?"; "q3?"; "q4?"; "q5?"; "q6?"; "q7? "]) in
  recent_questions (after r) = ["q2?"; "q3?"; "q4?"; "q5?"; "q6?"; "q7?"]
  /\ recent_q_text (recent_questions (after r)) = "q5?; q6?; q7?".
Proof.
  intros ask r.
  assert (Hlen : (List.length (recent_questions (new_orchestrator 0)) <= 6)%nat)
    by (simpl; lia).
  exact (orchestrate_all_recent_questions loads_empty_object (new_orchestrator 0)
           (map ask ["q1?"; " q2?"; "q3?"; "q4?"; "q5?"; "q6?"; "q7? "]) Hlen).
Defined.

(** ** A transcript from its first paragraph to the final flush *)

Section Transcript.

Variable json_loads : string -> option json.
Variable interview : bool.
Variable mode : string.

Lemma process_utterance_orchestrate (o : ProcessOrchestrator)
    (text role : string) (now : Q) (resp_e resp_m : completion) :
  process_utterance json_loads o text role now resp_e resp_m
  = orchestrate json_loads o (ProcessUtterance text role now) resp_e resp_m.
Proof. reflexivity. Qed.

Lemma orchestrate_words (o : ProcessOrchestrator) (e : entry)
    (resp_e resp_m : completion) :
  let r := orchestrate json_loads o e resp_e resp_m in
  sent_words (sent r) ++ pending_tokens (answer_chunker (after r))
  = pending_tokens (answer_chunker o) ++ entry_words e.
Proof.
  cbv zeta. rewrite orchestrate_chunker, orchestrate_sent_words.
  apply chunker_call_tokens.
Qed.

Lemma orchestrate_nonempty (o : ProcessOrchestrator) (e : entry)
    (resp_e resp_m : completion) :
  Forall (fun req => snd req <> EmptyString)
    (sent (orchestrate json_loads o e resp_e resp_m)).
Proof.
  destruct e as [text role now|now|];
    unfold orchestrate, idle_check, force_flush;
    try apply process_if_ready_facts.
  unfold process_utterance.
  destruct (decide (role = "QUESTION")); [constructor|].
  destruct (decide (role = "ANSWER")); [|constructor].
  apply process_if_ready_facts.
Qed.

Lemma handle_paragraph_facts (o : ProcessOrchestrator) (p : string)
    (inp : paragraph_input) :
  let r := handle_paragraph json_loads interview mode o p inp in
  raised r = None ->
  sent_words (sent r) ++ pending_tokens (answer_chunker (after r))
  = pending_tokens (answer_chunker o)
    ++ (if routed json_loads interview mode p inp then split p else [])
  /\ (dom (self_memory o) = dom empty_process_memory ->
      dom (self_memory (after r)) = dom empty_process_memory)
  /\ Forall (fun req => snd req <> EmptyString) (sent r).
Proof.
  unfold handle_paragraph, routed.
  destruct (decide (p = EmptyString)) as [->|Hp].
  - intros _. cbn [sent after]. split; [|split; [auto | constructor]].
    change (split EmptyString) with (@nil string).
    change (sent_words []) with (@nil string).
    destruct (_ || _); now rewrite app_nil_r.
  - assert (Hutter : forall role,
      let r := process_utterance json_loads o p role (at_time inp)
                 (resp_extract inp) (resp_merge inp) in
      sent_words (sent r) ++ pending_tokens (answer_chunker (after r))
      = pending_tokens (answer_chunker o)
        ++ entry_words (ProcessUtterance p role (at_time inp))
      /\ (dom (self_memory o) = dom empty_process_memory ->
          dom (self_memory (after r)) = dom empty_process_memory)
      /\ Forall (fun req => snd req <> EmptyString) (sent r)).
    { intros role. cbv zeta. rewrite process_utterance_orchestrate.
      split; [apply orchestrate_words|]. split; [|apply orchestrate_nonempty].
      intros Hdom.
      destruct (orchestrate_memory json_loads o
                  (ProcessUtterance p role (at_time inp))
                  (resp_extract inp) (resp_merge inp)) as [H|H];
        [now rewrite H | exact H]. }
    destruct interview; cbn [negb orb].
    + destruct (classify_role json_loads mode p (resp_classify inp)) as [[|]|e].
      * intros _. apply (Hutter "QUESTION").
      * intros _. apply (Hutter "ANSWER").
      * discriminate.
    + intros _. apply (Hutter "ANSWER").
Qed.

Lemma process_paragraphs_facts (ps : list string) (inputs : list paragraph_input)
    (o : ProcessOrchestrator) :
  let r := process_paragraphs json_loads interview mode o ps inputs in
  raised r = None ->
  sent_words (sent r) ++ pending_tokens (answer_chunker (after r))
  = pending_tokens (answer_chunker o)
    ++ routed_words json_loads interview mode ps inputs
  /\ (dom (self_memory o) = dom empty_process_memory ->
      dom (self_memory (after r)) = dom empty_process_memory)
  /\ Forall (fun req => snd req <> EmptyString) (sent r).
Proof.
  revert inputs o. induction ps as [|p ps IH]; intros inputs o.
  - cbn [process_paragraphs routed_words sent after]. intros _.
    split; [now rewrite app_nil_r|]. split; [auto | constructor].
  - destruct inputs as [|inp inputs].
    + cbn [process_paragraphs routed_words sent after]. intros _.
      split; [now rewrite app_nil_r|]. split; [auto | constructor].
    + cbn [process_paragraphs routed_words].
      pose proof (handle_paragraph_facts o p inp) as Hh. cbv zeta in Hh.
      destruct (raised (handle_paragraph json_loads interview mode o p inp))
        as [e|] eqn:Hr.
      * intros Hnone. cbv zeta in Hnone. congruence.
      * cbn [sent after raised]. intros Hnone.
        destruct (Hh eq_refl) as (H1 & H2 & H3).
        destruct (IH inputs _ Hnone) as (I1 & I2 & I3).
        split; [|split].
        -- rewrite sent_words_app, <- List.app_assoc, I1, List.app_assoc, H1.
           now rewrite <- List.app_assoc.
        -- auto.
        -- now apply Forall_app.
Qed.

(** X13.  When [process_markdown_transcript] reaches the writing of the
    documents without an exception, with inputs for each paragraph: the
    words of the segments it sent to extraction, in order, are the words of
    the paragraphs that went to the chunker (all paragraphs when interview
    mode is off, those classified ANSWER otherwise), each once and in its
    place; no segment sent is empty; nothing is left pending in the chunker;
    and the memory has exactly the fields of the empty schema. *)
Theorem process_markdown_transcript_words (content : string) (start : Q)
    (inputs : list paragraph_input) (final_e final_m : completion) :
  let r := process_markdown_transcript json_loads interview mode content start
             inputs final_e final_m in
  List.length inputs = List.length (paragraphs content) ->
  raised r = None ->
  sent_words (sent r)
  = routed_words json_loads interview mode (paragraphs content) inputs
  /\ (interview = false ->
      sent_words (sent r) = concat (map split (paragraphs content)))
  /\ Forall (fun req => snd req <> EmptyString) (sent r)
  /\ buffer (answer_chunker (after r)) = []
  /\ dom (self_memory (after r)) = dom empty_process_memory.
Proof.
  intros r Hlen. subst r. unfold process_markdown_transcript.
  pose proof (process_paragraphs_facts (paragraphs content) inputs
                (new_orchestrator start)) as Hloop. cbv zeta in Hloop.
  destruct (raised (process_paragraphs json_loads interview mode
                      (new_orchestrator start) (paragraphs content) inputs))
    as [e|] eqn:Hr; [intros Hfinal; congruence|].
  cbn [sent after raised]. intros Hfinal.
  destruct (Hloop eq_refl) as (H1 & H2 & H3).
  set (r0 := process_paragraphs json_loads interview mode
               (new_orchestrator start) (paragraphs content) inputs) in *.
  pose proof (orchestrate_words (after r0) ForceFlush final_e final_m) as Hw.
  pose proof (orchestrate_chunker json_loads (after r0) ForceFlush final_e final_m)
    as Hc.
  cbv zeta in Hw. cbn [orchestrate chunker_call entry_words] in Hw, Hc.
  destruct (force_flush_chunk_drains (answer_chunker (after r0))) as (_ & Hempty & _).
  rewrite <- Hc in Hempty.
  rewrite (pending_tokens_empty _ Hempty), !app_nil_r in Hw.
  assert (Hwords : sent_words (sent r0 ++ sent (force_flush json_loads (after r0)
                                                 final_e final_m))
                   = routed_words json_loads interview mode (paragraphs content)
                       inputs).
  { rewrite sent_words_app, Hw. exact H1. }
  split; [exact Hwords|]. split; [|split; [|split]].
  - intros Hoff. rewrite Hwords.
    assert (Hall : forall b ps ins, b = false ->
              List.length ins = List.length ps ->
              routed_words json_loads b mode ps ins = concat (map split ps)).
    { intros b ps ins ->. revert ins. induction ps as [|p ps IH];
        intros [|inp ins] Hl; try discriminate; [reflexivity|].
      cbn [routed_words map concat]. unfold routed at 1.
      cbn [negb orb]. f_equal. apply IH. simpl in Hl. lia. }
    now apply Hall.
  - apply Forall_app. split; [exact H3|].
    apply (orchestrate_nonempty (after r0) ForceFlush).
  - exact Hempty.
  - destruct (orchestrate_memory json_loads (after r0) ForceFlush final_e final_m)
      as [H|H]; cbn [orchestrate] in H.
    + rewrite H. now apply H2.
    + exact H.
Qed.

End Transcript.

(** X13, an instance: a question and an answer in interview mode, the
    heuristic classifier, a service that answers nothing. *)
Lemma process_markdown_transcript_words_witness :
  let silent := mkParagraphInput 1 (CompletionContent None)
                  (CompletionContent None) (CompletionContent None) in
  let r := process_markdown_transcript loads_empty_object true "heuristic"
             "How do refunds work?\n\nWe notify the customer." 0
             [silent; silent] (CompletionContent None) (CompletionContent None) in
  sent_words (sent r) = ["We"; "notify"; "the"; "customer."]
  /\ buffer (answer_chunker (after r)) = [].
Proof.
  intros silent r.
  assert (Hlen : List.length [silent; silent]
                 = List.length (paragraphs
                     "How do refunds work?\n\nWe notify the customer."))
    by reflexivity.
  assert (Hraised : raised r = None) by (vm_compute; reflexivity).
  destruct (process_markdown_transcript_words loads_empty_object true "heuristic"
              "How do refunds work?\n\nWe notify the customer." 0
              [silent; silent] (CompletionContent None) (CompletionContent None)
              Hlen Hraised) as (Hwords & _ & _ & Hbuf & _).
  split; [|exact Hbuf].
  fold r in Hwords. rewrite Hwords. reflexivity.
Defined.

(** ** The merge under the lock reads the current memory *)

Section FreshMemory.

Local Open Scope nat_scope.

Variable json_loads : string -> option json.

(** X14.  In every state that [n] routines of [process_chunk] can reach,
    the model that a routine inside the block guarded by the lock has passed
    to [merge_models] is the memory as it is then: no merge is computed from
    a memory that another routine has replaced in the meantime. *)
Theorem merge_reads_current_memory (n : nat) (st : pipeline) (i : nat)
    (a : gmap string json) (v : json) :
  reachable json_loads n st ->
  routines st !! i = Some (Merging a v) ->
  a = memory st.
Proof.
  intros Hrun. revert i a v.
  change (fresh st).
  assert (H : invariant n st /\ fresh st); [|exact (proj2 H)].
  apply (rtc_ind_r (R := step json_loads)
           (fun s => invariant n s /\ fresh s) (started n));
    [| |exact Hrun].
  - split; [apply invariant_started|].
    intros j b w Hj. unfold started in Hj. cbn [routines] in Hj.
    apply lookup_replicate in Hj as [Hj _]. discriminate.
  - intros y z _ Hstep [Hinv Hfresh]. split.
    + eapply invariant_step; eassumption.
    + eapply fresh_step; eassumption.
Qed.

End FreshMemory.

(** X14, an instance: of two routines, the first has taken the lock. *)
Lemma merge_reads_current_memory_witness :
  exists (st : pipeline) (a : gmap string json) (v : json),
    reachable loads_empty_object 2 st
    /\ routines st !! 0%nat = Some (Merging a v)
    /\ a = memory st.
Proof.
  assert (Hrun : exists st a v, reachable loads_empty_object 2 st
                                /\ routines st !! 0%nat = Some (Merging a v)).
  { eexists. eexists. eexists. split.
    - unfold reachable, started.
      eapply rtc_l; [eapply (step_extract _ _ 0%nat (CompletionContent None));
                     reflexivity|].
      eapply rtc_l; [eapply (step_acquire _ _ 0%nat); reflexivity|].
      apply rtc_refl.
    - reflexivity. }
  destruct Hrun as (st & a & v & Hrun & Hi). exists st, a, v.
  split; [exact Hrun | split; [exact Hi|]].
  exact (merge_reads_current_memory loads_empty_object 2 st 0 a v Hrun Hi).
Defined.

Example wrap_text_example :
  wrap_text "S1: Customer calls the support line today" 25
  = "S1: Customer calls the\nsupport line today".
Proof. reflexivity. Qed.

Example wrap_text_short : wrap_text "Notify customer" 25 = "Notify customer".
Proof. reflexivity. Qed.

(** ** Wrapped labels *)

Lemma str_len_app (a b : string) : str_len (a +:+ b) = str_len a + str_len b.
Proof.
  unfold str_len. induction a as [|c a IH]; [rewrite sapp_nil; simpl; lia|].
  rewrite sapp_cons. cbn [String.length]. lia.
Qed.

Lemma join_snoc (cur : list string) (w : string) :
  join " " (cur ++ [w])
  = match cur with
    | [] => w
    | _ :: _ => join " " cur +:+ " " +:+ w
    end.
Proof.
  induction cur as [|x [|y cur] IH]; [reflexivity | reflexivity|].
  change ((x :: y :: cur) ++ [w]) with (x :: (y :: cur) ++ [w]).
  change ((y :: cur) ++ [w]) with (y :: cur ++ [w]) at 1.
  rewrite join_cons2. change (y :: cur ++ [w]) with ((y :: cur) ++ [w]).
  rewrite IH, join_cons2. now rewrite !sapp_assoc.
Qed.

Lemma close_line_ok (max_length : Z) (st : wrap_state) :
  wrap_inv max_length st ->
  Forall (line_ok max_length) (close_line (wrap_lines st) (current_line st))
  /\ concat (map split (close_line (wrap_lines st) (current_line st)))
     = wrap_words st.
Proof.
  intros (Hw & Hl & Hc). unfold close_line, wrap_words.
  destruct (current_line st) as [|x cur] eqn:E.
  - split; [exact Hl | now rewrite app_nil_r].
  - split.
    + apply Forall_app. split; [exact Hl|]. constructor; [|constructor].
      split; [apply join_words_nonempty; [exact Hw | discriminate]|].
      destruct Hc as [[Hc _]|[Hlen [Hfit|[w Hone]]]]; [discriminate| |].
      * left. lia.
      * right. injection Hone as -> ->. simpl.
        now apply Forall_cons_1 in Hw as [Hw _].
    + rewrite map_app, concat_app. cbn [map concat]. rewrite app_nil_r.
      now rewrite split_join by exact Hw.
Qed.

Lemma wrap_step_inv (max_length : Z) (st : wrap_state) (w : string) :
  word w -> wrap_inv max_length st ->
  wrap_inv max_length (wrap_step max_length st w)
  /\ wrap_words (wrap_step max_length st w) = wrap_words st ++ [w].
Proof.
  intros Hword Hinv. pose proof Hinv as (Hw & Hl & Hc). unfold wrap_step.
  destruct (Z.leb_spec (current_length st + str_len w + 1) max_length) as [Hfit|Hfull].
  - split.
    + unfold wrap_inv. cbn [current_line wrap_lines current_length].
      split; [apply Forall_app; split; [exact Hw | now constructor]|].
      split; [exact Hl|]. right. split; [|now left].
      rewrite join_snoc. destruct (current_line st) as [|x cur] eqn:E.
      * destruct Hc as [[_ Hzero]|[Hlen _]]; [lia|].
        change (join " " []) with EmptyString in Hlen.
        change (str_len EmptyString) with 0 in Hlen. lia.
      * destruct Hc as [[Hc _]|[Hlen _]]; [discriminate|].
        rewrite !str_len_app. change (str_len " ") with 1. lia.
    + unfold wrap_words. cbn [current_line wrap_lines].
      now rewrite List.app_assoc.
  - destruct (close_line_ok max_length st Hinv) as [Hok Hwords]. split.
    + unfold wrap_inv. cbn [current_line wrap_lines current_length].
      split; [constructor; [exact Hword | constructor]|]. split; [exact Hok|].
      right. split; [cbn [join]; lia | right; eauto].
    + unfold wrap_words at 1. cbn [current_line wrap_lines].
      now rewrite Hwords.
Qed.

Lemma wrap_fold_inv (max_length : Z) (ws : list string) (st : wrap_state) :
  Forall word ws -> wrap_inv max_length st ->
  wrap_inv max_length (fold_left (wrap_step max_length) ws st)
  /\ wrap_words (fold_left (wrap_step max_length) ws st) = wrap_words st ++ ws.
Proof.
  revert st. induction ws as [|w ws IH]; intros st Hws Hinv.
  - simpl. now rewrite app_nil_r.
  - apply Forall_cons_1 in Hws as [Hw Hws].
    destruct (wrap_step_inv max_length st w Hw Hinv) as [Hinv' Hwords'].
    destruct (IH _ Hws Hinv') as [H1 H2]. split; [exact H1|].
    cbn [fold_left]. rewrite H2, Hwords'. now rewrite <- List.app_assoc.
Qed.

(** X15.  [wrap_text] returns a text that is empty or not longer than
    [max_length] as it is.  A longer text is cut into lines, of which the
    first three are joined: the words of the lines, in order, are the words
    of the text, and each line is non-empty and either not longer than
    [max_length] or a single word. *)
Theorem wrap_text_lines (text : string) (max_length : Z) :
  (text = EmptyString \/ str_len text <= max_length ->
   wrap_text text max_length = text)
  /\ (text <> EmptyString -> max_length < str_len text ->
      let lines := wrapped_lines text max_length in
      wrap_text text max_length = join LINE_SEP (take 3 lines)
      /\ concat (map split lines) = split text
      /\ Forall (line_ok max_length) lines).
Proof.
  split.
  - intros Hcase. unfold wrap_text.
    destruct (bool_decide_reflect (text = EmptyString)); [reflexivity|].
    destruct (Z.leb_spec (str_len text) max_length); [reflexivity|].
    destruct Hcase; [contradiction | lia].
  - intros Hne Hlong lines. split.
    + unfold wrap_text.
      destruct (bool_decide_reflect (text = EmptyString)); [contradiction|].
      destruct (Z.leb_spec (str_len text) max_length); [lia | reflexivity].
    + assert (Hinit : wrap_inv max_length (mkWrap [] [] 0)).
      { unfold wrap_inv. cbn. repeat split; auto. }
      destruct (wrap_fold_inv max_length (split text) _ (split_words text) Hinit)
        as [Hinv Hwords].
      destruct (close_line_ok max_length _ Hinv) as [Hok Hall].
      split; [|exact Hok].
      unfold lines, wrapped_lines. cbv zeta. rewrite Hall, Hwords. reflexivity.
Qed.

(** X15, an instance: a label of seven words at width 25. *)
Lemma wrap_text_lines_witness :
  wrapped_lines "S1: Customer calls the support line today" 25
  = ["S1: Customer calls the"; "support line today"]
  /\ Forall (line_ok 25)
       (wrapped_lines "S1: Customer calls the support line today" 25).
Proof.
  split; [reflexivity|].
  refine (proj2 (proj2 (proj2 (wrap_text_lines
            "S1: Customer calls the support line today" 25) _ _))).
  - discriminate.
  - vm_compute. reflexivity.
Defined.

(** ** Every run of the routines can be brought to its end *)

Section Completion.

Local Open Scope nat_scope.

Variable json_loads : string -> option json.

Lemma merging_remaining (r : routine) : merging r <= remaining r.
Proof. destruct r; simpl; lia. Qed.

Lemma total_le (f g : routine -> nat) (l : list routine) :
  (forall r, f r <= g r) -> total f l <= total g l.
Proof.
  intros H. induction l as [|r l IH]; simpl; [lia|]. specialize (H r). lia.
Qed.

(** X16.  From every state that [n] routines of [process_chunk] can reach,
    the routines can be run on until each of them has returned or raised;
    no more than three steps per routine are left to take, and in every
    state where all have ended the lock is free. *)
Theorem routines_can_end (n : nat) (st : pipeline) :
  reachable json_loads n st ->
  (exists st', rtc (step json_loads) st st'
               /\ total remaining (routines st') = 0
               /\ locked st' = false)
  /\ total remaining (routines st) <= 3 * n.
Proof.
  intros Hrun. split.
  - remember (total remaining (routines st)) as m eqn:Hm.
    revert st Hrun Hm. induction m as [m IH] using lt_wf_ind.
    intros st Hrun Hm.
    pose proof (invariant_reachable json_loads n st Hrun) as Hinv.
    destruct (Nat.eq_dec m 0) as [Hz|Hpos].
    + exists st. split; [apply rtc_refl|]. split; [lia|].
      destruct Hinv as (Hc & _ & _). unfold in_critical in Hc.
      pose proof (total_le merging remaining (routines st) merging_remaining).
      destruct (locked st); [lia | reflexivity].
    + destruct (total_positive remaining (routines st)) as (i & r & Hi & Hr);
        [lia|].
      destruct (no_deadlock json_loads n st i r Hinv Hi Hr) as [st1 Hstep].
      pose proof (step_decreases json_loads st st1 Hstep) as Hdec.
      assert (Hrun1 : reachable json_loads n st1)
        by (unfold reachable in *; eapply rtc_r; eassumption).
      destruct (IH (total remaining (routines st1)) ltac:(lia) st1 Hrun1 eq_refl)
        as (st' & Hrest & Hend & Hfree).
      exists st'. split; [|auto]. eapply rtc_l; eassumption.
  - pose proof (invariant_reachable json_loads n st Hrun) as (_ & _ & Hlen).
    assert (Hbound : forall l, total remaining l <= 3 * List.length l).
    { induction l as [|r l IHl]; simpl; [lia|]. destruct r; simpl; lia. }
    specialize (Hbound (routines st)). lia.
Qed.

End Completion.

(** X16, an instance: two routines that have just started. *)
Lemma routines_can_end_witness :
  exists st' : pipeline,
    rtc (step loads_empty_object) (started 2) st'
    /\ total remaining (routines st') = 0%nat
    /\ locked st' = false.
Proof.
  exact (proj1 (routines_can_end loads_empty_object 2 (started 2) (rtc_refl _ _))).
Defined.
